(** * safe_angles: unit-tagged angles over IEEE-754 binary floating point

    A shallow embedding of [src/safe_angles.hpp] (namespace [mkp::trigo]).

    - A C++ floating-point payload of type [T] is a [spec_float] of the
      Standard Library (IEEE-754 binary, round to nearest even), read at the
      precision and exponent range of [T].  [spec_float] has a single NaN:
      NaN payloads and signalling bits are not distinguished.
    - [angle_unit<T, Tag>] is a record indexed by the precision and by the
      phantom unit tag, so that [degrees T] and [radians T] are distinct
      Rocq types with the same payload.
    - The overload set of [angle_cast] is resolved at compile time; its
      resolution is modelled as a function on the C++ types of a call.
    - In-place operators act on objects held in a store of object
      locations.
    - The functions of [<cmath>] and the scalar rendering of [<format>] are
      not part of the repository: they are parameters. *)

From Stdlib Require Import ZArith Bool List String Lia QArith Qabs Qpower Lqa.
From Stdlib Require Import Floats.SpecFloat.
From Stdlib Require Import Strings.Byte.
From stdpp Require Import base gmap.

Local Open Scope Z_scope.

(** ** The floating-point types *)

(** The types [T] that instantiate the templates: [float] (binary32) and
    [double] (binary64). *)
Inductive floating_point : Type := float | double.

Definition floating_point_eqb (T U : floating_point) : bool :=
  match T, U with
  | float, float | double, double => true
  | _, _ => false
  end.

(** Number of significand bits, the implicit one included. *)
Definition prec (T : floating_point) : Z :=
  match T with float => 24 | double => 53 end.

(** Exponent of the infinities. *)
Definition emax (T : floating_point) : Z :=
  match T with float => 128 | double => 1024 end.

Definition fadd (T : floating_point) : spec_float -> spec_float -> spec_float :=
  SFadd (prec T) (emax T).
Definition fsub (T : floating_point) : spec_float -> spec_float -> spec_float :=
  SFsub (prec T) (emax T).
Definition fmul (T : floating_point) : spec_float -> spec_float -> spec_float :=
  SFmul (prec T) (emax T).
Definition fdiv (T : floating_point) : spec_float -> spec_float -> spec_float :=
  SFdiv (prec T) (emax T).
Definition fneg : spec_float -> spec_float := SFopp.

(** The value [m * 2^e] rounded to [T]; [T(180)] is [of_dyadic T 180 0]. *)
Definition of_dyadic (T : floating_point) (m e : Z) : spec_float :=
  binary_normalize (prec T) (emax T) m e false.

Definition of_int (T : floating_point) (n : Z) : spec_float := of_dyadic T n 0.

(** [std::numbers::pi_v<T>]: the value of [T] nearest to pi,
    [0x40490FDB] for [float] and [0x400921FB54442D18] for [double]. *)
Definition pi_v (T : floating_point) : spec_float :=
  match T with
  | float => S754_finite false 13176795 (-22)
  | double => S754_finite false 7074237752028440 (-51)
  end.

(** Built-in comparison of two payloads: [a <=> b] is a
    [std::partial_ordering], [None] standing for [unordered]. *)
Definition partial_ordering : Type := option comparison.

Definition spaceship (a b : spec_float) : partial_ordering := SFcompare a b.

(** [o < 0], [o > 0], [o <= 0], [o >= 0] for a [std::partial_ordering]. *)
Definition is_lt (o : partial_ordering) : bool :=
  match o with Some Lt => true | _ => false end.
Definition is_gt (o : partial_ordering) : bool :=
  match o with Some Gt => true | _ => false end.
Definition is_lteq (o : partial_ordering) : bool :=
  match o with Some (Lt | Eq) => true | _ => false end.
Definition is_gteq (o : partial_ordering) : bool :=
  match o with Some (Gt | Eq) => true | _ => false end.

(** Built-in [<] on payloads. *)
Definition flt (a b : spec_float) : bool := SFltb a b.

(** ** Conversion factors (lines 8-16) *)

Definition degrees_to_radians_factor (T : floating_point) : spec_float :=
  fdiv T (pi_v T) (of_int T 180).

Definition radians_to_degrees_factor (T : floating_point) : spec_float :=
  fdiv T (of_int T 180) (pi_v T).

(** ** The tagged value (lines 18-83) *)

Inductive unit_tag : Type := degrees_tag | radians_tag.

Definition unit_tag_eqb (a b : unit_tag) : bool :=
  match a, b with
  | degrees_tag, degrees_tag | radians_tag, radians_tag => true
  | _, _ => false
  end.

Record angle_unit (T : floating_point) (Tag : unit_tag) : Type :=
  mk_angle_unit { val_ : spec_float }.

Arguments mk_angle_unit {T Tag} _.
Arguments val_ {T Tag} _.

Abbreviation degrees T := (angle_unit T degrees_tag).
Abbreviation radians T := (angle_unit T radians_tag).

Module AngleUnit.
Section Operators.
Context {T : floating_point} {Tag : unit_tag}.
Implicit Types a b : angle_unit T Tag.
Implicit Types t : spec_float.

Definition value a : spec_float := val_ a.

(** [operator<=>] and the comparisons the compiler rewrites to it. *)
Definition cmp a b : partial_ordering := spaceship (val_ a) (val_ b).
Definition lt a b : bool := is_lt (cmp a b).
Definition gt a b : bool := is_gt (cmp a b).
Definition le a b : bool := is_lteq (cmp a b).
Definition ge a b : bool := is_gteq (cmp a b).

Definition neg a : angle_unit T Tag := mk_angle_unit (fneg (val_ a)).
Definition pos a : angle_unit T Tag := a.

Definition add a b : angle_unit T Tag := mk_angle_unit (fadd T (val_ a) (val_ b)).
Definition sub a b : angle_unit T Tag := mk_angle_unit (fsub T (val_ a) (val_ b)).
Definition mul a t : angle_unit T Tag := mk_angle_unit (fmul T (val_ a) t).
Definition mul_left t a : angle_unit T Tag := mk_angle_unit (fmul T t (val_ a)).
Definition div a t : angle_unit T Tag := mk_angle_unit (fdiv T (val_ a) t).
End Operators.
End AngleUnit.

Import AngleUnit.

(** ** The conversions (lines 124-141) *)

Definition angle_cast_identity {T Tag} (t : angle_unit T Tag) : angle_unit T Tag := t.

Definition angle_cast_degrees_to_radians {T} (t : degrees T) : radians T :=
  mk_angle_unit (fmul T (value t) (degrees_to_radians_factor T)).

Definition angle_cast_radians_to_degrees {T} (t : radians T) : degrees T :=
  mk_angle_unit (fmul T (value t) (radians_to_degrees_factor T)).

(** ** Overload resolution of [angle_cast] (lines 116-141)

    [angle_cast] names four function templates.  A call is
    [angle_cast<X>(u)], with one explicit template argument [X], or
    [angle_cast(u)], with none.  An explicit argument is substituted for the
    FIRST template parameter of every candidate. *)

(** The C++ types that occur as template arguments and as call arguments. *)
Inductive cpp_type : Type :=
  | Scalar (T : floating_point)
  | Angle (T : floating_point) (Tag : unit_tag).

Definition cpp_type_eqb (X Y : cpp_type) : bool :=
  match X, Y with
  | Scalar T, Scalar U => floating_point_eqb T U
  | Angle T g, Angle U h => floating_point_eqb T U && unit_tag_eqb g h
  | _, _ => false
  end.

(** The concept [AngleUnit] (lines 95-105). *)
Definition AngleUnit (X : cpp_type) : bool :=
  match X with Angle _ _ => true | Scalar _ => false end.

(** [angle_underlying_t] (lines 107-108), on types that satisfy [AngleUnit]. *)
Definition angle_underlying_t (X : cpp_type) : option floating_point :=
  match X with Angle T _ => Some T | Scalar _ => None end.

Inductive overload : Type :=
  | catch_all            (* lines 116-122, template<AngleUnit T, AngleUnit U> *)
  | identity_cast        (* lines 126-129, template<AngleUnit T> T(T) *)
  | degrees_to_radians   (* lines 133-136, template<typename T> radians<T>(degrees<T>) *)
  | radians_to_degrees.  (* lines 138-141, template<typename T> degrees<T>(radians<T>) *)

(** [formula_viable from X arg]: viability of
    [template<typename T> angle_unit<T, to> angle_cast(angle_unit<T, from>)].
    With no explicit argument [T] is deduced from the argument, which must be
    an [angle_unit<T, from>].  With an explicit argument [X], [T] is [X]: the
    parameter type [angle_unit<X, from>] exists only when [X] is a
    floating-point type (the constraint of line 19), and the argument must
    have exactly that type, as a tagged value converts implicitly to no
    other type (the constructor of line 26 is explicit). *)
Definition formula_viable (from : unit_tag) (explicit : option cpp_type) (arg : cpp_type) : bool :=
  match explicit with
  | None =>
      match arg with Angle _ g => unit_tag_eqb g from | Scalar _ => false end
  | Some (Scalar T) => cpp_type_eqb arg (Angle T from)
  | Some (Angle _ _) => false
  end.

Definition viable (o : overload) (explicit : option cpp_type) (arg : cpp_type) : bool :=
  match o with
  | catch_all =>
      (* T is not deducible: it must be given; U is the argument's type. *)
      match explicit with
      | Some X =>
          AngleUnit X && AngleUnit arg
          && negb (cpp_type_eqb X arg)
          && match angle_underlying_t X, angle_underlying_t arg with
             | Some T, Some U => floating_point_eqb T U
             | _, _ => false
             end
      | None => false
      end
  | identity_cast =>
      match explicit with
      | Some X => AngleUnit X && cpp_type_eqb arg X
      | None => AngleUnit arg
      end
  | degrees_to_radians => formula_viable degrees_tag explicit arg
  | radians_to_degrees => formula_viable radians_tag explicit arg
  end.

(** Partial ordering of the templates: a parameter [angle_unit<T, tag>] is
    more specialized than a parameter [T]. *)
Definition more_specialized (o o' : overload) : bool :=
  match o, o' with
  | degrees_to_radians, identity_cast | radians_to_degrees, identity_cast => true
  | _, _ => false
  end.

Definition overloads : list overload :=
  catch_all :: identity_cast :: degrees_to_radians :: radians_to_degrees :: nil.

Definition overload_eqb (o o' : overload) : bool :=
  match o, o' with
  | catch_all, catch_all | identity_cast, identity_cast
  | degrees_to_radians, degrees_to_radians
  | radians_to_degrees, radians_to_degrees => true
  | _, _ => false
  end.

Inductive resolution : Type :=
  | Selected (o : overload)
  | NoViableFunction
  | Ambiguous.

(** Every viable candidate is an exact match; the best one is the viable
    candidate more specialized than every other viable candidate. *)
Definition resolve (explicit : option cpp_type) (arg : cpp_type) : resolution :=
  let candidates := List.filter (fun o => viable o explicit arg) overloads in
  let best o :=
    List.forallb (fun o' => overload_eqb o o' || more_specialized o o') candidates in
  match candidates with
  | nil => NoViableFunction
  | _ => match List.filter best candidates with
         | o :: nil => Selected o
         | _ => Ambiguous
         end
  end.

(** What the translation unit does with a call. *)
Inductive outcome (A : Type) : Type :=
  | Returns (a : A)
  | StaticAssertFailed (message : string)
  | NoMatchingFunction
  | AmbiguousCall.

Arguments Returns {A} _.
Arguments StaticAssertFailed {A} _.
Arguments NoMatchingFunction {A}.
Arguments AmbiguousCall {A}.

(** A tagged value together with its type. *)
Inductive tagged : Type :=
  | Tagged (T : floating_point) (Tag : unit_tag) (a : angle_unit T Tag).

Arguments Tagged {T Tag} _.

Definition type_of (r : tagged) : cpp_type :=
  match r with @Tagged T Tag _ => Angle T Tag end.

Definition payload (r : tagged) : spec_float :=
  match r with Tagged a => value a end.

(** The diagnostic of line 121. *)
Definition not_implemented : string := "implement conversion from U to T".

(** The call [angle_cast<X>(u)] ([explicit = Some X]) or [angle_cast(u)]
    ([explicit = None]) for a tagged value [u]. *)
Definition call_angle_cast (explicit : option cpp_type) {T Tag} (u : angle_unit T Tag)
  : outcome tagged :=
  match resolve explicit (Angle T Tag) with
  | Selected catch_all => StaticAssertFailed not_implemented
  | Selected identity_cast => Returns (Tagged (angle_cast_identity u))
  | Selected degrees_to_radians =>
      match Tag return angle_unit T Tag -> outcome tagged with
      | degrees_tag => fun t => Returns (Tagged (angle_cast_degrees_to_radians t))
      | radians_tag => fun _ => NoMatchingFunction
      end u
  | Selected radians_to_degrees =>
      match Tag return angle_unit T Tag -> outcome tagged with
      | radians_tag => fun t => Returns (Tagged (angle_cast_radians_to_degrees t))
      | degrees_tag => fun _ => NoMatchingFunction
      end u
  | NoViableFunction => NoMatchingFunction
  | Ambiguous => AmbiguousCall
  end.

Definition outcome_map {A B} (f : A -> B) (r : outcome A) : outcome B :=
  match r with
  | Returns a => Returns (f a)
  | StaticAssertFailed m => StaticAssertFailed m
  | NoMatchingFunction => NoMatchingFunction
  | AmbiguousCall => AmbiguousCall
  end.

(** ** The angle functions (lines 145-178) *)

(** The functions of [<cmath>] at each precision. *)
Record cmath : Type := {
  std_sin : floating_point -> spec_float -> spec_float;
  std_cos : floating_point -> spec_float -> spec_float;
  std_tan : floating_point -> spec_float -> spec_float;
  std_asin : floating_point -> spec_float -> spec_float;
  std_acos : floating_point -> spec_float -> spec_float;
  std_atan : floating_point -> spec_float -> spec_float;
  std_atan2 : floating_point -> spec_float -> spec_float -> spec_float
}.

Section Functions.
Variable std : cmath.
Context {T : floating_point}.

(** [angle_cast<radians<T>>(angle).value()] *)
Definition to_radians_payload {Tag} (angle : angle_unit T Tag) : outcome spec_float :=
  outcome_map payload (call_angle_cast (Some (Angle T radians_tag)) angle).

Definition sin {Tag} (angle : angle_unit T Tag) : outcome spec_float :=
  outcome_map (std_sin std T) (to_radians_payload angle).

Definition cos {Tag} (angle : angle_unit T Tag) : outcome spec_float :=
  outcome_map (std_cos std T) (to_radians_payload angle).

Definition tan {Tag} (angle : angle_unit T Tag) : outcome spec_float :=
  outcome_map (std_tan std T) (to_radians_payload angle).

Definition asin (x : spec_float) : radians T := mk_angle_unit (std_asin std T x).
Definition acos (x : spec_float) : radians T := mk_angle_unit (std_acos std T x).
Definition atan (x : spec_float) : radians T := mk_angle_unit (std_atan std T x).
Definition atan2 (y x : spec_float) : radians T := mk_angle_unit (std_atan2 std T y x).
End Functions.

(** ** Formatting (lines 185-203) *)

Definition is_byte (c d : byte) : bool := Byte.eqb c d.

(** [std::format_to(out, fmt, v)] for a format string with one replacement
    field [{}]: the bytes of [fmt] are copied and the field is replaced by
    the rendering [arg] of the scalar [v]. *)
Fixpoint format_to (fmt : list byte) (arg : list byte) : list byte :=
  match fmt with
  | nil => nil
  | c :: rest =>
      match rest with
      | d :: rest' =>
          if is_byte c "{"%byte && is_byte d "}"%byte then arg ++ rest'
          else c :: format_to rest arg
      | nil => c :: nil
      end
  end.

(** The format string of line 191: the bytes of ["{}rd"]. *)
Definition radians_format_string : list byte :=
  (x7b :: x7d :: x72 :: x64 :: nil)%list.

(** The format string of line 201: the bytes between the quotes are
    [7b 7d c3 82 c2 b0]. *)
Definition degrees_format_string : list byte :=
  (x7b :: x7d :: xc3 :: x82 :: xc2 :: xb0 :: nil)%list.

(** UTF-8 of the degree sign U+00B0. *)
Definition degree_sign : list byte := (xc2 :: xb0 :: nil)%list.

Section Formatter.
(** The rendering of a scalar of type [T] by [{}]. *)
Variable format_scalar : floating_point -> spec_float -> list byte.
Context {T : floating_point}.

Definition format_radians (angle : radians T) : list byte :=
  format_to radians_format_string (format_scalar T (value angle)).

Definition format_degrees (angle : degrees T) : list byte :=
  format_to degrees_format_string (format_scalar T (value angle)).
End Formatter.

(** ** In-place operators (lines 42-60)

    The receiver [*this] is an object in a store; the argument is passed by
    value; the returned reference is the location of an object. *)

Definition loc : Type := positive.

Section Compound.
Context {T : floating_point} {Tag : unit_tag}.
Implicit Types s : gmap loc (angle_unit T Tag).

Definition update (f : spec_float -> spec_float) (this : loc) s
  : option (loc * gmap loc (angle_unit T Tag)) :=
  match s !! this with
  | Some obj => Some (this, <[this := mk_angle_unit (f (val_ obj))]> s)
  | None => None
  end.

Definition add_assign (this : loc) (a : angle_unit T Tag) s :=
  update (fun v => fadd T v (val_ a)) this s.
Definition sub_assign (this : loc) (a : angle_unit T Tag) s :=
  update (fun v => fsub T v (val_ a)) this s.
Definition mul_assign (this : loc) (t : spec_float) s :=
  update (fun v => fmul T v t) this s.
Definition div_assign (this : loc) (t : spec_float) s :=
  update (fun v => fdiv T v t) this s.
End Compound.

(** ** Default construction (line 26) *)

(** [angle_unit()]: the payload is [T{}], the positive zero. *)
Definition default_angle {T : floating_point} {Tag : unit_tag} : angle_unit T Tag :=
  mk_angle_unit (S754_zero false).

(** ** Stream output (lines 209-215) *)

Section Stream.
Variable format_scalar : floating_point -> spec_float -> list byte.

(** [std::format("{}", angle)]: the formatter specialization of the type of
    [angle]. *)
Definition format_angle {T Tag} : angle_unit T Tag -> list byte :=
  match Tag with
  | degrees_tag => format_degrees format_scalar
  | radians_tag => format_radians format_scalar
  end.

(** [operator<<] on a stream that accepts output: the characters are
    appended to what the stream holds, and the stream is returned. *)
Definition stream_insert {T Tag} (os : list byte) (angle : angle_unit T Tag)
  : list byte :=
  (os ++ format_angle angle)%list.
End Stream.

(** ** Literals (lines 220-236) *)

Module trigo_literals.

(** Conversion of a [long double] value to [T]: the [static_cast<float>] of
    lines 222 and 230 and the implicit conversion of the constructor
    argument at lines 226 and 234.  A finite value is rounded to nearest
    even at the precision of [T]; zeros, infinities and NaN are kept. *)
Definition narrow (T : floating_point) (v : spec_float) : spec_float :=
  match v with
  | S754_finite s m e => binary_round (prec T) (emax T) s m e
  | _ => v
  end.

Definition _degf (v : spec_float) : degrees float := mk_angle_unit (narrow float v).
Definition _degd (v : spec_float) : degrees double := mk_angle_unit (narrow double v).
Definition _radf (v : spec_float) : radians float := mk_angle_unit (narrow float v).
Definition _radd (v : spec_float) : radians double := mk_angle_unit (narrow double v).

End trigo_literals.

Import trigo_literals.

(** ** Vocabulary of the statements *)

(** What a call of [angle_cast] that returns a value has computed. *)
Definition accepted_cast {T Tag} (u : angle_unit T Tag) (r : tagged) : Prop :=
  (type_of r = Angle T Tag /\ payload r = value u)
  \/ (Tag = degrees_tag /\ type_of r = Angle T radians_tag
      /\ payload r = fmul T (value u) (degrees_to_radians_factor T))
  \/ (Tag = radians_tag /\ type_of r = Angle T degrees_tag
      /\ payload r = fmul T (value u) (radians_to_degrees_factor T)).

(** The two round trips of a payload through lines 133-141. *)
Definition round_trip_degrees (T : floating_point) (x : spec_float) : spec_float :=
  value (angle_cast_radians_to_degrees
           (angle_cast_degrees_to_radians (mk_angle_unit x : degrees T))).

Definition round_trip_radians (T : floating_point) (x : spec_float) : spec_float :=
  value (angle_cast_degrees_to_radians
           (angle_cast_radians_to_degrees (mk_angle_unit x : radians T))).

Definition is_finite (x : spec_float) : bool :=
  match x with
  | S754_finite _ _ _ | S754_zero _ => true
  | _ => false
  end.

(** The dyadic rational [m * 2^e]. *)
Definition dyadic (m e : Z) : Q := (inject_Z m * 2 ^ e)%Q.

(** The rational value of a finite floating-point number, 0 for the
    others. *)
Definition SF2Q (x : spec_float) : Q :=
  match x with
  | S754_finite s m e => if s then (- dyadic (Zpos m) e)%Q else dyadic (Zpos m) e
  | _ => 0%Q
  end.

(** [std::numeric_limits<T>::epsilon()]: [2^-23] and [2^-52]. *)
Definition machine_epsilon (T : floating_point) : Q := (2 ^ (1 - prec T))%Q.

(** [r] is finite and equal to [x] within the relative tolerance [tol]. *)
Definition within (tol : Q) (x r : spec_float) : Prop :=
  is_finite r = true
  /\ (Qabs (SF2Q r - SF2Q x) <= tol * Qabs (SF2Q x))%Q.

(** The payloads on which both round trips stay away from overflow and from
    the subnormal range: the zeros, and the normal numbers [m * 2^e] with
    [emin + 6 <= e <= emax - prec - 7], that is
    [64 * min <= |x| <= max / 128] for the smallest positive normal number
    [min] and the largest finite number [max] of [T]. *)
Definition round_trip_domain (T : floating_point) (x : spec_float) : bool :=
  match x with
  | S754_zero _ => true
  | S754_finite _ m e =>
      (Zpos (digits2_pos m) =? prec T)
      && (emin (prec T) (emax T) + 6 <=? e)
      && (e <=? emax T - prec T - 7)
  | _ => false
  end.

(** A store of two [degrees<float>] objects: 90 at location 1, 45 at
    location 2. *)
Definition example_angle (n : Z) : degrees float := mk_angle_unit (of_int float n).

Definition example_store : gmap loc (degrees float) :=
  <[2%positive := example_angle 45]> (<[1%positive := example_angle 90]> ∅).

(** The record after [j + 1] one-bit right shifts of the exact number [N]. *)
Definition shifted (N : Z) (j : nat) : shr_record :=
  Nat.iter (S j) shr_1 (Build_shr_record N false false).

Definition is_zero (x : spec_float) : bool :=
  match x with S754_zero _ => true | _ => false end.

(** A finite value with more digits than [T] holds, whose rounding stays in
    the normal range of [T]. *)
Definition narrows_normally (T : floating_point) (v : spec_float) : bool :=
  match v with
  | S754_finite _ m e =>
      let n := (Zpos (digits2_pos m) - prec T)%Z in
      (0 <? n)%Z && (emin (prec T) (emax T) <=? e + n)%Z
      && (e + n + 1 <=? emax T - prec T)%Z
  | _ => false
  end.

(** 0.1 as an x87 [long double]: [0xCCCCCCCCCCCCCCCD * 2^-67]. *)
Definition one_tenth_long_double : spec_float :=
  S754_finite false 14757395258967641293 (-67).

(** * Properties *)

(** ** Constants *)

Lemma degrees_to_radians_factor_float :
  degrees_to_radians_factor float = S754_finite false 9370165 (-29).
Proof. vm_compute. reflexivity. Qed.

Lemma degrees_to_radians_factor_double :
  degrees_to_radians_factor double = S754_finite false 5030569068109113 (-58).
Proof. vm_compute. reflexivity. Qed.

Lemma radians_to_degrees_factor_float :
  radians_to_degrees_factor float = S754_finite false 15019744 (-18).
Proof. vm_compute. reflexivity. Qed.

Lemma radians_to_degrees_factor_double :
  radians_to_degrees_factor double = S754_finite false 8063664102031864 (-47).
Proof. vm_compute. reflexivity. Qed.

(** The constants are valid numbers of their format. *)
Lemma constants_valid (T : floating_point) :
  valid_binary (prec T) (emax T) (pi_v T) = true
  /\ valid_binary (prec T) (emax T) (of_int T 180) = true
  /\ valid_binary (prec T) (emax T) (degrees_to_radians_factor T) = true
  /\ valid_binary (prec T) (emax T) (radians_to_degrees_factor T) = true.
Proof. destruct T; vm_compute; auto. Qed.

(** ** Overload resolution *)

Lemma floating_point_eqb_refl (T : floating_point) : floating_point_eqb T T = true.
Proof. destruct T; reflexivity. Qed.

Lemma floating_point_eqb_eq (T U : floating_point) :
  floating_point_eqb T U = true <-> T = U.
Proof. destruct T, U; simpl; split; congruence. Qed.

Lemma resolve_own_type (T : floating_point) (Tag : unit_tag) :
  resolve (Some (Angle T Tag)) (Angle T Tag) = Selected identity_cast.
Proof. destruct T, Tag; reflexivity. Qed.

Lemma resolve_deduced (T : floating_point) (Tag : unit_tag) :
  resolve None (Angle T Tag) =
  Selected (match Tag with
            | degrees_tag => degrees_to_radians
            | radians_tag => radians_to_degrees
            end).
Proof. destruct T, Tag; reflexivity. Qed.

Lemma resolve_other_tag (T : floating_point) (Tag Tag' : unit_tag) :
  Tag <> Tag' ->
  resolve (Some (Angle T Tag')) (Angle T Tag) = Selected catch_all.
Proof. destruct T, Tag, Tag'; intros H; try reflexivity; congruence. Qed.

(** The candidates of [angle_cast<radians<T>>(d)] for a [degrees<T>] value
    [d].  The formula templates receive [radians<T>] as their parameter [T]
    and have no specialization; the identity template expects a
    [radians<T>] argument; the catch-all is the one viable candidate. *)
Lemma candidates_to_radians_of_degrees (T : floating_point) :
  List.map (fun o => viable o (Some (Angle T radians_tag)) (Angle T degrees_tag))
    overloads
  = (true :: false :: false :: false :: nil)%list.
Proof. destruct T; reflexivity. Qed.

(** The candidates of [angle_cast(d)]: the identity and the
    degrees-to-radians formula, the latter more specialized. *)
Lemma candidates_deduced_of_degrees (T : floating_point) :
  List.map (fun o => viable o None (Angle T degrees_tag)) overloads
  = (false :: true :: true :: false :: nil)%list.
Proof. destruct T; reflexivity. Qed.

Lemma resolve_other_precision (T U : floating_point) (Tag Tag' : unit_tag) :
  T <> U ->
  resolve (Some (Angle U Tag')) (Angle T Tag) = NoViableFunction.
Proof. destruct T, U, Tag, Tag'; intros H; try reflexivity; congruence. Qed.

(** ** C1 *)

(** C1: for every payload [x] of precision [T], the degrees-to-radians
    conversion returns a radians value with payload [x * (pi_v<T> / T(180))]
    and the radians-to-degrees conversion returns a degrees value with
    payload [x * (T(180) / pi_v<T>)], the factors being computed in [T];
    the call [angle_cast(u)] reaches these two conversions. *)
Theorem angle_cast_formulas (T : floating_point) (x : spec_float) :
  let d : degrees T := mk_angle_unit x in
  let r : radians T := mk_angle_unit x in
  value (angle_cast_degrees_to_radians d)
    = fmul T x (fdiv T (pi_v T) (of_int T 180))
  /\ value (angle_cast_radians_to_degrees r)
    = fmul T x (fdiv T (of_int T 180) (pi_v T))
  /\ call_angle_cast None d
    = Returns (Tagged (mk_angle_unit (fmul T x (degrees_to_radians_factor T)) : radians T))
  /\ call_angle_cast None r
    = Returns (Tagged (mk_angle_unit (fmul T x (radians_to_degrees_factor T)) : degrees T)).
Proof.
  intros d r. split; [reflexivity|]. split; [reflexivity|].
  unfold call_angle_cast. rewrite !resolve_deduced. split; reflexivity.
Qed.

(** ** C4 *)

(** C4: for every tagged value [u] (any tag, any precision, any payload,
    NaN and the infinities included), [angle_cast<angle_unit<T, Tag>>(u)]
    selects the identity overload and returns [u] itself, so the payload is
    unchanged; neither conversion formula is a candidate of that call. *)
Theorem angle_cast_own_type (T : floating_point) (Tag : unit_tag) (u : angle_unit T Tag) :
  resolve (Some (Angle T Tag)) (Angle T Tag) = Selected identity_cast
  /\ viable degrees_to_radians (Some (Angle T Tag)) (Angle T Tag) = false
  /\ viable radians_to_degrees (Some (Angle T Tag)) (Angle T Tag) = false
  /\ call_angle_cast (Some (Angle T Tag)) u = Returns (Tagged u)
  /\ value (angle_cast_identity u) = value u.
Proof.
  split; [apply resolve_own_type|].
  split; [reflexivity|]. split; [reflexivity|]. split; [|reflexivity].
  unfold call_angle_cast. rewrite resolve_own_type. reflexivity.
Qed.

(** ** C6 *)

Lemma SFmul_comm (p e : Z) (x y : spec_float) : SFmul p e x y = SFmul p e y x.
Proof.
  destruct x as [sx|sx| |sx mx ex], y as [sy|sy| |sy my ey]; simpl;
    try rewrite (xorb_comm sx sy); try reflexivity.
  now rewrite Pos.mul_comm, Z.add_comm.
Qed.

(** C6: for two values [a], [b] of one tagged type and a scalar [k],
    [a + b], [a - b], [a * k], [k * a] and [a / k] are values of the same
    tagged type whose payloads are [a.value() + b.value()],
    [a.value() - b.value()], [a.value() * k] (both operand orders) and
    [a.value() / k]; the tag is arbitrary, so this holds for degrees and for
    radians. *)
Theorem arithmetic_payloads (T : floating_point) (Tag : unit_tag)
    (a b : angle_unit T Tag) (k : spec_float) :
  value (add a b) = fadd T (value a) (value b)
  /\ value (sub a b) = fsub T (value a) (value b)
  /\ value (mul a k) = fmul T (value a) k
  /\ value (mul_left k a) = fmul T (value a) k
  /\ value (div a k) = fdiv T (value a) k.
Proof.
  repeat (split; [reflexivity|]); split; [|reflexivity].
  unfold mul_left, value, fmul; simpl. apply SFmul_comm.
Qed.

(** ** C7 *)

Lemma cmp_nan (T : floating_point) (Tag : unit_tag) (a b : angle_unit T Tag) :
  value a = S754_nan \/ value b = S754_nan ->
  cmp a b = None /\ lt a b = false /\ gt a b = false
  /\ le a b = false /\ ge a b = false.
Proof.
  unfold lt, gt, le, ge, cmp, spaceship, value.
  intros [H|H]; rewrite H; [|destruct (val_ a)]; repeat split.
Qed.

(** C7: for two values of one tagged type, [a <=> b] is the comparison of
    the payloads, and [a < b] is true exactly when [a.value() < b.value()]
    is, also when a payload is NaN (the comparison is then unordered and
    [<] is false on both sides). *)
Theorem ordering_by_payload (T : floating_point) (Tag : unit_tag)
    (a b : angle_unit T Tag) :
  cmp a b = spaceship (value a) (value b)
  /\ lt a b = flt (value a) (value b)
  /\ (lt a b = true <-> flt (value a) (value b) = true).
Proof.
  assert (H : lt a b = flt (value a) (value b)) by reflexivity.
  split; [reflexivity|]. split; [exact H|]. now rewrite H.
Qed.

(** ** C10 *)

Section CompoundProperties.
Context {T : floating_point} {Tag : unit_tag}.
Implicit Types s : gmap loc (angle_unit T Tag).

Lemma update_spec (f : spec_float -> spec_float) (this : loc) s (a : angle_unit T Tag) :
  s !! this = Some a ->
  exists s', update f this s = Some (this, s')
    /\ s' !! this = Some (mk_angle_unit (f (value a)))
    /\ forall l : loc, l <> this -> s' !! l = s !! l.
Proof.
  intros H. unfold update. rewrite H. eexists. split; [reflexivity|]. split.
  - apply lookup_insert_eq.
  - intros l Hl. apply lookup_insert_ne. congruence.
Qed.
End CompoundProperties.

(** C10: when the receiver, the object at location [this], holds [a], each
    of [+=], [-=], [*=], [/=] returns the location [this] itself, leaves in
    it the result of the binary operator on [a] and the argument, and leaves
    every other object of the store unchanged. *)
Theorem compound_agrees_with_binary (T : floating_point) (Tag : unit_tag)
    (s : gmap loc (angle_unit T Tag)) (this : loc)
    (a b : angle_unit T Tag) (k : spec_float) :
  s !! this = Some a ->
  (exists s', add_assign this b s = Some (this, s')
     /\ s' !! this = Some (add a b)
     /\ forall l : loc, l <> this -> s' !! l = s !! l)
  /\ (exists s', sub_assign this b s = Some (this, s')
     /\ s' !! this = Some (sub a b)
     /\ forall l : loc, l <> this -> s' !! l = s !! l)
  /\ (exists s', mul_assign this k s = Some (this, s')
     /\ s' !! this = Some (mul a k)
     /\ forall l : loc, l <> this -> s' !! l = s !! l)
  /\ (exists s', div_assign this k s = Some (this, s')
     /\ s' !! this = Some (div a k)
     /\ forall l : loc, l <> this -> s' !! l = s !! l).
Proof.
  intros H. unfold add_assign, sub_assign, mul_assign, div_assign.
  repeat split.
  - apply (update_spec (fun v => fadd T v (val_ b)) this s a H).
  - apply (update_spec (fun v => fsub T v (val_ b)) this s a H).
  - apply (update_spec (fun v => fmul T v k) this s a H).
  - apply (update_spec (fun v => fdiv T v k) this s a H).
Qed.

Lemma compound_agrees_with_binary_witness :
  example_store !! 1%positive = Some (example_angle 90)
  /\ exists s', add_assign 1%positive (example_angle 45) example_store
               = Some (1%positive, s')
     /\ s' !! 1%positive = Some (add (example_angle 90) (example_angle 45))
     /\ forall l : loc, l <> 1%positive -> s' !! l = example_store !! l.
Proof.
  assert (H : example_store !! 1%positive = Some (example_angle 90)) by reflexivity.
  split; [exact H|].
  exact (proj1 (compound_agrees_with_binary float degrees_tag example_store
                  1%positive (example_angle 90) (example_angle 45)
                  (of_int float 2) H)).
Defined.

(** ** C3 *)

(** C3: for every scalar input, [asin], [acos] and [atan] return a value of
    type [radians<T>] whose payload is the standard inverse function of the
    input, and [atan2(y, x)] returns a value of type [radians<T>] whose
    payload is the standard two-argument arctangent of [(y, x)]: quadrant,
    signed zeros and infinities are resolved by that function alone. *)
Theorem inverse_functions (std : cmath) (T : floating_point) (y x : spec_float) :
  type_of (Tagged (@asin std T x)) = Angle T radians_tag
  /\ type_of (Tagged (@acos std T x)) = Angle T radians_tag
  /\ type_of (Tagged (@atan std T x)) = Angle T radians_tag
  /\ type_of (Tagged (@atan2 std T y x)) = Angle T radians_tag
  /\ value (@asin std T x) = std_asin std T x
  /\ value (@acos std T x) = std_acos std T x
  /\ value (@atan std T x) = std_atan std T x
  /\ value (@atan2 std T y x) = std_atan2 std T y x.
Proof. repeat split. Qed.

(** ** C2 *)

Lemma to_radians_payload_radians (T : floating_point) (r : radians T) :
  to_radians_payload r = Returns (value r).
Proof.
  unfold to_radians_payload, call_angle_cast. now rewrite resolve_own_type.
Qed.

Lemma to_radians_payload_degrees (T : floating_point) (d : degrees T) :
  to_radians_payload d = StaticAssertFailed not_implemented.
Proof.
  unfold to_radians_payload, call_angle_cast.
  rewrite resolve_other_tag by discriminate. reflexivity.
Qed.

(** On a radians value, [sin], [cos] and [tan] apply the standard function
    to the payload. *)
Lemma trig_of_radians (std : cmath) (T : floating_point) (r : radians T) :
  sin std r = Returns (std_sin std T (value r))
  /\ cos std r = Returns (std_cos std T (value r))
  /\ tan std r = Returns (std_tan std T (value r)).
Proof.
  unfold sin, cos, tan. rewrite to_radians_payload_radians. repeat split.
Qed.

(** C2 at a degrees value: the call [angle_cast<radians<T>>(angle)] inside
    [sin], [cos] and [tan] resolves to the template of lines 116-122, whose
    [static_assert] fails; the functions return nothing on a degrees
    value, here the 90-degree value of each precision. *)
Theorem trig_of_degrees (std : cmath) (T : floating_point) :
  let angle : degrees T := mk_angle_unit (of_int T 90) in
  resolve (Some (Angle T radians_tag)) (Angle T degrees_tag) = Selected catch_all
  /\ sin std angle = StaticAssertFailed not_implemented
  /\ cos std angle = StaticAssertFailed not_implemented
  /\ tan std angle = StaticAssertFailed not_implemented.
Proof.
  intros angle. split; [apply resolve_other_tag; discriminate|].
  unfold sin, cos, tan. rewrite to_radians_payload_degrees. repeat split.
Qed.

(** The payload that the degrees-to-radians formula gives for 90 degrees is
    the payload [pi_v<T> / 2] exactly. *)
Lemma ninety_degrees_payload (T : floating_point) :
  value (angle_cast_degrees_to_radians (mk_angle_unit (of_int T 90) : degrees T))
  = fdiv T (pi_v T) (of_int T 2).
Proof. destruct T; vm_compute; reflexivity. Qed.

(** ** C8 *)

Lemma call_angle_cast_accepted (explicit : option cpp_type)
    (T : floating_point) (Tag : unit_tag) (u : angle_unit T Tag) :
  match call_angle_cast explicit u with
  | Returns r => accepted_cast u r
  | _ => True
  end.
Proof.
  unfold call_angle_cast.
  destruct (resolve explicit (Angle T Tag)) as [[ | | | ]| |]; try exact I.
  - left. split; reflexivity.
  - destruct Tag; [|exact I]. right; left. repeat split.
  - destruct Tag; [exact I|]. right; right. repeat split.
Qed.

(** C8 as stated fails at [angle_cast<radians<double>>(degrees<float>(90))]:
    the call is rejected because no candidate is viable, and the
    [static_assert] carrying the diagnostic is not reached. *)
Lemma mismatched_precision_no_diagnostic :
  viable catch_all (Some (Angle double radians_tag)) (Angle float degrees_tag) = false
  /\ call_angle_cast (Some (Angle double radians_tag)) (example_angle 90)
     = NoMatchingFunction
  /\ call_angle_cast (Some (Angle double radians_tag)) (example_angle 90)
     <> StaticAssertFailed not_implemented.
Proof. repeat split. discriminate. Qed.

(** C8, amended: between tagged types of different precision,
    [angle_cast<angle_unit<U, Tag'>>(u)] is rejected at compile time because
    no candidate is viable: the constraint of lines 117-118 removes the
    template that carries the diagnostic, so the rejection is a failed
    overload resolution.  Whatever the call form, a call that returns a
    value returns the argument itself or the result of one of the two
    authored formulas at the precision of the argument; nothing is routed
    through an intermediate unit. *)
Theorem mismatched_precision_rejected (T U : floating_point) (Tag Tag' : unit_tag)
    (u : angle_unit T Tag) (explicit : option cpp_type) :
  T <> U ->
  viable catch_all (Some (Angle U Tag')) (Angle T Tag) = false
  /\ resolve (Some (Angle U Tag')) (Angle T Tag) = NoViableFunction
  /\ call_angle_cast (Some (Angle U Tag')) u = NoMatchingFunction
  /\ match call_angle_cast explicit u with
     | Returns r => accepted_cast u r
     | _ => True
     end.
Proof.
  intros H.
  assert (R := resolve_other_precision T U Tag Tag' H).
  split; [destruct T, U, Tag, Tag'; try reflexivity; congruence|].
  split; [exact R|]. split.
  - unfold call_angle_cast. now rewrite R.
  - apply call_angle_cast_accepted.
Qed.

Lemma mismatched_precision_rejected_witness :
  float <> double
  /\ call_angle_cast (Some (Angle double radians_tag)) (example_angle 90)
     = NoMatchingFunction
  /\ match call_angle_cast None (example_angle 90) with
     | Returns r => accepted_cast (example_angle 90) r
     | _ => True
     end.
Proof.
  assert (H : float <> double) by discriminate.
  split; [exact H|].
  exact (proj2 (proj2 (mismatched_precision_rejected float double degrees_tag
                         radians_tag (example_angle 90) None H))).
Defined.

(** ** C9 *)

Lemma format_radians_bytes (format_scalar : floating_point -> spec_float -> list byte)
    (T : floating_point) (angle : radians T) :
  format_radians format_scalar angle
  = (format_scalar T (value angle) ++ x72 :: x64 :: nil)%list.
Proof. reflexivity. Qed.

(** C9 at a degrees value: whatever the rendering of the scalar, the bytes
    written after it are [c3 82 c2 b0], the UTF-8 encoding of the two
    characters U+00C2 U+00B0, and not [c2 b0], the encoding of the degree
    sign alone; when 90 renders as the bytes of ["90"], the output is
    [39 30 c3 82 c2 b0]. *)
Theorem format_degrees_bytes (format_scalar : floating_point -> spec_float -> list byte)
    (T : floating_point) :
  let angle : degrees T := mk_angle_unit (of_int T 90) in
  format_degrees format_scalar angle
  = (format_scalar T (of_int T 90) ++ xc3 :: x82 :: xc2 :: xb0 :: nil)%list
  /\ format_degrees format_scalar angle
     <> (format_scalar T (of_int T 90) ++ degree_sign)%list
  /\ format_degrees (fun _ _ => x39 :: x30 :: nil)%list angle
     = (x39 :: x30 :: xc3 :: x82 :: xc2 :: xb0 :: nil)%list.
Proof.
  intros angle. split; [reflexivity|]. split; [|reflexivity].
  change (format_degrees format_scalar angle)
    with (format_scalar T (of_int T 90) ++ xc3 :: x82 :: xc2 :: xb0 :: nil)%list.
  intros H. apply app_inv_head in H. discriminate H.
Qed.

(** ** C5 *)

(** *** Right shifts and rounding to nearest even *)

(** The iterator of [shr] is plain iteration. *)
Lemma iter_pos_nat {A : Type} (f : A -> A) (n : positive) (x : A) :
  SpecFloat.iter_pos f n x = Nat.iter (Pos.to_nat n) f x.
Proof.
  revert x. induction n as [n IH|n IH|]; intros x.
  - cbn [SpecFloat.iter_pos]. rewrite !IH, Pos2Nat.inj_xI.
    change (f x) with (Nat.iter 1 f x). rewrite <- !Nat.iter_add.
    f_equal. lia.
  - cbn [SpecFloat.iter_pos]. rewrite !IH, Pos2Nat.inj_xO, <- Nat.iter_add.
    f_equal. lia.
  - reflexivity.
Qed.

Lemma shr_1_nonneg (m : Z) (r s : bool) :
  0 <= m ->
  shr_1 (Build_shr_record m r s) = Build_shr_record (Z.div2 m) (Z.odd m) (r || s).
Proof.
  intros H. destruct m as [|[q|q|]|q]; try reflexivity. lia.
Qed.

Lemma shifted_S (N : Z) (j : nat) : shifted N (S j) = shr_1 (shifted N j).
Proof. reflexivity. Qed.

Lemma shifted_0 (N : Z) : shifted N 0 = shr_1 (Build_shr_record N false false).
Proof. reflexivity. Qed.

(** It holds the quotient by [2^(j+1)], the bit of weight [2^j] and whether
    lower bits are set. *)
Lemma shifted_spec (N : Z) (j : nat) :
  0 <= N ->
  0 <= shr_m (shifted N j)
  /\ exists rem, 0 <= rem < 2 ^ Z.of_nat j
     /\ N = shr_m (shifted N j) * 2 ^ (Z.of_nat j + 1)
            + Z.b2z (shr_r (shifted N j)) * 2 ^ Z.of_nat j + rem
     /\ shr_s (shifted N j) = negb (rem =? 0).
Proof.
  intros HN. induction j as [|j IH].
  - rewrite shifted_0, shr_1_nonneg by exact HN. cbn [shr_m shr_r shr_s].
    split; [apply Z.div2_nonneg; exact HN|].
    exists 0. split; [simpl; lia|]. split; [|reflexivity].
    rewrite (Z.div2_odd N) at 1. change (2 ^ (Z.of_nat 0 + 1)) with 2.
    change (2 ^ Z.of_nat 0) with 1. lia.
  - rewrite shifted_S.
    destruct (shifted N j) as [m r s].
    cbn [shr_m shr_r shr_s] in IH. destruct IH as [Hm [rem [Hrem [HNeq Hs]]]].
    rewrite shr_1_nonneg by exact Hm. cbn [shr_m shr_r shr_s].
    split; [apply Z.div2_nonneg; exact Hm|].
    rewrite Nat2Z.inj_succ.
    assert (P2 : 2 ^ Z.succ (Z.of_nat j) = 2 * 2 ^ Z.of_nat j)
      by (apply Z.pow_succ_r; lia).
    assert (P3 : 2 ^ (Z.of_nat j + 1) = 2 * 2 ^ Z.of_nat j)
      by (rewrite Z.add_1_r; exact P2).
    assert (P4 : 2 ^ (Z.succ (Z.of_nat j) + 1) = 4 * 2 ^ Z.of_nat j).
    { rewrite Z.add_1_r, Z.pow_succ_r, P2 by lia. ring. }
    assert (Hpos : 0 < 2 ^ Z.of_nat j) by (apply Z.pow_pos_nonneg; lia).
    exists (Z.b2z r * 2 ^ Z.of_nat j + rem).
    rewrite P2, P4. rewrite P3 in HNeq.
    split; [destruct r; cbn [Z.b2z]; lia|]. split.
    + rewrite HNeq. rewrite (Z.div2_odd m) at 1. ring.
    + rewrite Hs. destruct r; cbn [Z.b2z orb].
      * symmetry. apply negb_true_iff, Z.eqb_neq. lia.
      * replace (0 * 2 ^ Z.of_nat j + rem) with rem by lia. reflexivity.
Qed.

(** Rounding the shifted record to nearest even moves the exact number by at
    most half a unit of the kept digits. *)
Lemma round_nearest_even_spec (N : Z) (j : nat) :
  0 <= N ->
  - 2 ^ Z.of_nat j
  <= round_nearest_even (shr_m (shifted N j)) (loc_of_shr_record (shifted N j))
     * 2 ^ (Z.of_nat j + 1) - N
  <= 2 ^ Z.of_nat j.
Proof.
  intros HN.
  destruct (shifted_spec N j HN) as [Hm [rem [Hrem [HNeq Hs]]]].
  destruct (shifted N j) as [m r s]. cbn [shr_m shr_r shr_s] in *.
  assert (P3 : 2 ^ (Z.of_nat j + 1) = 2 * 2 ^ Z.of_nat j)
    by (rewrite Z.add_1_r; apply Z.pow_succ_r; lia).
  rewrite P3 in *.
  destruct r, s; cbn [loc_of_shr_record round_nearest_even Z.b2z] in *.
  - lia.
  - symmetry in Hs. apply negb_false_iff, Z.eqb_eq in Hs. subst rem.
    destruct (Z.even m); lia.
  - lia.
  - symmetry in Hs. apply negb_false_iff, Z.eqb_eq in Hs. lia.
Qed.

(** [digits2_pos q] is the number of binary digits of [q]. *)
Lemma digits2_pos_bounds (q : positive) :
  2 ^ (Zpos (digits2_pos q) - 1) <= Zpos q < 2 ^ Zpos (digits2_pos q).
Proof.
  induction q as [q IH|q IH|]; cbn [digits2_pos].
  - rewrite Pos2Z.inj_succ. change (Zpos q~1) with (2 * Zpos q + 1).
    replace (Z.succ (Zpos (digits2_pos q)) - 1) with (Z.succ (Zpos (digits2_pos q) - 1)) by lia.
    rewrite !Z.pow_succ_r by lia.
    revert IH. generalize (2 ^ (Zpos (digits2_pos q) - 1)) (2 ^ Zpos (digits2_pos q)). intros; lia.
  - rewrite Pos2Z.inj_succ. change (Zpos q~0) with (2 * Zpos q).
    replace (Z.succ (Zpos (digits2_pos q)) - 1) with (Z.succ (Zpos (digits2_pos q) - 1)) by lia.
    rewrite !Z.pow_succ_r by lia.
    revert IH. generalize (2 ^ (Zpos (digits2_pos q) - 1)) (2 ^ Zpos (digits2_pos q)). intros; lia.
  - split; [reflexivity|reflexivity].
Qed.

Lemma digits2_pos_unique (q : positive) (d : Z) :
  2 ^ (d - 1) <= Zpos q < 2 ^ d -> Zpos (digits2_pos q) = d.
Proof.
  intros [Hl Hu]. destruct (digits2_pos_bounds q) as [Bl Bu].
  assert (Hd : 0 < d).
  { destruct (Z.lt_trichotomy d 0) as [H|[H|H]]; [|subst d; simpl in Hu; lia|exact H].
    rewrite Z.pow_neg_r in Hu by exact H. lia. }
  destruct (Z.lt_trichotomy (Zpos (digits2_pos q)) d) as [H|[H|H]]; [|exact H|].
  - assert (2 ^ Zpos (digits2_pos q) <= 2 ^ (d - 1)) by (apply Z.pow_le_mono_r; lia). lia.
  - assert (2 ^ d <= 2 ^ (Zpos (digits2_pos q) - 1)) by (apply Z.pow_le_mono_r; lia). lia.
Qed.


Lemma shr_pos (N e : Z) (n : positive) :
  shr (Build_shr_record N false false) e (Zpos n)
  = (shifted N (Nat.pred (Pos.to_nat n)), e + Zpos n).
Proof.
  unfold shr, shifted. rewrite iter_pos_nat. do 2 f_equal.
  pose proof (Pos2Nat.is_pos n). lia.
Qed.

(** Rounding of a product in the normal range.  [N] has [p + n] digits with
    [n > 0], and the exponent [e + n] of the rounded result lies between
    [emin] and [emax - p - 1]: the result is finite with the sign [s], a
    significand of exactly [p] digits, and its value [m'' * 2^e''] is
    [m1 * 2^(e+n)] for an [m1] with [|m1 * 2^n - N| <= 2^(n-1)]. *)
Lemma binary_round_aux_normal (p emx : Z) (s : bool) (N n : positive) (e : Z) :
  0 < p ->
  Zpos (digits2_pos N) = p + Zpos n ->
  emin p emx <= e + Zpos n ->
  e + Zpos n + 1 <= emx - p ->
  exists (m1 : Z) (m'' : positive) (e'' : Z),
    binary_round_aux p emx s (Zpos N) e loc_Exact = S754_finite s m'' e''
    /\ - 2 ^ (Zpos n - 1) <= m1 * 2 ^ Zpos n - Zpos N <= 2 ^ (Zpos n - 1)
    /\ ((Zpos m'' = m1 /\ e'' = e + Zpos n)
        \/ (2 * Zpos m'' = m1 /\ e'' = e + Zpos n + 1))
    /\ 2 ^ (p - 1) <= Zpos m'' < 2 ^ p.
Proof.
  intros Hp Hd Hlo Hhi.
  set (j := Nat.pred (Pos.to_nat n)).
  assert (Hj : Z.of_nat j = Zpos n - 1) by (unfold j; lia).
  set (R := shifted (Zpos N) j).
  set (m1 := round_nearest_even (shr_m R) (loc_of_shr_record R)).
  assert (Hr := round_nearest_even_spec (Zpos N) j (Pos2Z.is_nonneg N)).
  fold R in Hr. fold m1 in Hr. rewrite Hj in Hr.
  replace (Zpos n - 1 + 1) with (Zpos n) in Hr by lia.
  (* powers of two *)
  set (A := 2 ^ (Zpos n - 1)) in *.
  set (B := 2 ^ (p - 1)).
  assert (HA : 0 < A) by (apply Z.pow_pos_nonneg; lia).
  assert (HB : 0 < B) by (apply Z.pow_pos_nonneg; lia).
  assert (EA : 2 ^ Zpos n = 2 * A).
  { unfold A. rewrite <- Z.pow_succ_r by lia. f_equal. lia. }
  assert (EB : 2 ^ p = 2 * B).
  { unfold B. rewrite <- Z.pow_succ_r by lia. f_equal. lia. }
  assert (EN : 2 ^ (p + Zpos n - 1) = 2 * A * B).
  { replace (p + Zpos n - 1) with (Z.succ ((Zpos n - 1) + (p - 1))) by lia.
    rewrite Z.pow_succ_r, Z.pow_add_r by lia. fold A B. ring. }
  assert (EN' : 2 ^ (p + Zpos n) = 4 * A * B).
  { replace (p + Zpos n) with (Z.succ (p + Zpos n - 1)) by lia.
    rewrite Z.pow_succ_r, EN by lia. ring. }
  destruct (digits2_pos_bounds N) as [Nl Nu]. rewrite Hd, ?EN, ?EN' in Nl, Nu.
  rewrite EA in Hr.
  assert (Hm1 : B <= m1 <= 2 * B) by nia.
  (* first shift *)
  assert (S1 : shr_fexp p emx (Zpos N) e loc_Exact = (R, e + Zpos n)).
  { unfold shr_fexp. cbn [Zdigits2 shr_record_of_loc]. rewrite Hd.
    replace (fexp p emx (p + Zpos n + e) - e) with (Zpos n)
      by (unfold fexp; lia).
    apply shr_pos. }
  unfold binary_round_aux. rewrite S1. fold m1.
  destruct m1 as [|q|q] eqn:Eq; try lia.
  destruct (Z.eq_dec (Zpos q) (2 * B)) as [Etop|Ntop].
  - (* the significand was rounded up to [2^p] *)
    assert (Dq : Zpos (digits2_pos q) = p + 1).
    { apply digits2_pos_unique. replace (p + 1 - 1) with p by lia.
      rewrite Z.add_1_r, Z.pow_succ_r, EB by lia. lia. }
    assert (S2 : shr_fexp p emx (Zpos q) (e + Zpos n) loc_Exact
                 = (shr_1 (Build_shr_record (Zpos q) false false), e + Zpos n + 1)).
    { unfold shr_fexp. cbn [Zdigits2 shr_record_of_loc]. rewrite Dq.
      replace (fexp p emx (p + 1 + (e + Zpos n)) - (e + Zpos n)) with 1
        by (unfold fexp; lia).
      reflexivity. }
    rewrite S2, shr_1_nonneg by lia. cbn [shr_m].
    assert (Ediv : Z.div2 (Zpos q) = B).
    { rewrite Etop, Z.div2_div, Z.mul_comm, Z.div_mul by lia. reflexivity. }
    rewrite Ediv. destruct B as [|b|b] eqn:EBv; try lia.
    replace (e + Zpos n + 1 <=? emx - p) with true
      by (symmetry; apply Z.leb_le; lia).
    exists (Zpos q), b, (e + Zpos n + 1).
    split; [reflexivity|]. split; [rewrite EA; exact Hr|].
    split; [right; split; [lia|reflexivity]|]. lia.
  - assert (Dq : Zpos (digits2_pos q) = p).
    { apply digits2_pos_unique. fold B. rewrite EB. lia. }
    assert (S2 : shr_fexp p emx (Zpos q) (e + Zpos n) loc_Exact
                 = (Build_shr_record (Zpos q) false false, e + Zpos n)).
    { unfold shr_fexp. cbn [Zdigits2 shr_record_of_loc]. rewrite Dq.
      replace (fexp p emx (p + (e + Zpos n)) - (e + Zpos n)) with 0
        by (unfold fexp; lia).
      reflexivity. }
    rewrite S2. cbn [shr_m].
    replace (e + Zpos n <=? emx - p) with true
      by (symmetry; apply Z.leb_le; lia).
    exists (Zpos q), q, (e + Zpos n).
    split; [reflexivity|]. split; [rewrite EA; exact Hr|].
    split; [left; split; reflexivity|]. fold B. rewrite EB. lia.
Qed.

(** *** Values *)

Local Open Scope Q_scope.

Lemma two_neq_0 : ~ 2 == 0.
Proof. discriminate. Qed.

Lemma pow2_pos (e : Z) : 0 < 2 ^ e.
Proof. apply Qpower_0_lt. reflexivity. Qed.

Lemma dyadic_nonneg (m e : Z) : (0 <= m)%Z -> 0 <= dyadic m e.
Proof.
  intros H. unfold dyadic. apply Qmult_le_0_compat.
  - rewrite Zle_Qle in H. exact H.
  - apply Qlt_le_weak, pow2_pos.
Qed.

Lemma dyadic_shift (m e k : Z) :
  (0 <= k)%Z -> dyadic (m * 2 ^ k) e == dyadic m (e + k).
Proof.
  intros H. unfold dyadic.
  rewrite inject_Z_mult, Zpower_Qpower by exact H.
  change (inject_Z 2) with 2%Q.
  rewrite (Qpower_plus 2 e k two_neq_0). ring.
Qed.

Lemma dyadic_mul (m m' e e' : Z) :
  dyadic (m * m') (e + e') == dyadic m e * dyadic m' e'.
Proof.
  unfold dyadic. rewrite inject_Z_mult, (Qpower_plus 2 e e' two_neq_0). ring.
Qed.

Lemma dyadic_sub (m m' e : Z) :
  dyadic m e - dyadic m' e == dyadic (m - m') e.
Proof.
  unfold dyadic, Z.sub. rewrite inject_Z_plus, inject_Z_opp. ring.
Qed.

Lemma dyadic_abs (m e : Z) : Qabs (dyadic m e) == dyadic (Z.abs m) e.
Proof.
  unfold dyadic. rewrite Qabs_Qmult.
  rewrite (Qabs_pos (2 ^ e)) by (apply Qlt_le_weak, pow2_pos).
  apply Qmult_comp; [|reflexivity].
  unfold Qabs, inject_Z. reflexivity.
Qed.

Lemma dyadic_le (m m' e : Z) : (m <= m')%Z -> dyadic m e <= dyadic m' e.
Proof.
  intros H. unfold dyadic. apply Qmult_le_compat_r.
  - rewrite Zle_Qle in H. exact H.
  - apply Qlt_le_weak, pow2_pos.
Qed.

(** *** One multiplication by a positive constant *)

(** In the normal range, the product of [x] by a positive normal constant
    is a normal number with the sign of [x], within the relative error
    [2^-p] of the exact product. *)
Lemma SFmul_normal (p emx : Z) (sx : bool) (mx mc : positive) (ex ec : Z) :
  (1 < p)%Z ->
  (Zpos (digits2_pos mx) = p)%Z ->
  (Zpos (digits2_pos mc) = p)%Z ->
  (emin p emx <= ex + ec + p - 1)%Z ->
  (ex + ec + 2 * p + 1 <= emx)%Z ->
  exists (my : positive) (ey : Z),
    SFmul p emx (S754_finite sx mx ex) (S754_finite false mc ec)
      = S754_finite sx my ey
    /\ (Zpos (digits2_pos my) = p)%Z
    /\ (ex + ec + p - 1 <= ey <= ex + ec + p + 1)%Z
    /\ inject_Z (2 ^ p)
       * Qabs (dyadic (Zpos my) ey - dyadic (Zpos mx) ex * dyadic (Zpos mc) ec)
       <= dyadic (Zpos mx) ex * dyadic (Zpos mc) ec.
Proof.
  intros Hp Dx Dc Hlo Hhi.
  destruct (digits2_pos_bounds mx) as [Xl Xu]. rewrite Dx in Xl, Xu.
  destruct (digits2_pos_bounds mc) as [Cl Cu]. rewrite Dc in Cl, Cu.
  set (B := (2 ^ (p - 1))%Z) in *.
  assert (HB : (0 < B)%Z) by (apply Z.pow_pos_nonneg; lia).
  assert (EB : (2 ^ p = 2 * B)%Z).
  { unfold B. rewrite <- Z.pow_succ_r by lia. f_equal. lia. }
  rewrite EB in Xu, Cu.
  (* the product has [2p - 1] or [2p] digits *)
  assert (E1 : (2 ^ (2 * p - 1 - 1) = B * B)%Z).
  { unfold B. rewrite <- Z.pow_add_r by lia. f_equal. lia. }
  assert (E2 : (2 ^ (2 * p - 1) = 2 * (B * B))%Z).
  { replace (2 * p - 1)%Z with (Z.succ (2 * p - 1 - 1)) by lia.
    rewrite Z.pow_succ_r, E1 by lia. reflexivity. }
  assert (E3 : (2 ^ (2 * p) = 4 * (B * B))%Z).
  { replace (2 * p)%Z with (Z.succ (2 * p - 1)) by lia.
    rewrite Z.pow_succ_r, E2 by lia. ring. }
  assert (Pl : (B * B <= Zpos (mx * mc))%Z) by (rewrite Pos2Z.inj_mul; nia).
  assert (Pu : (Zpos (mx * mc) < 4 * (B * B))%Z) by (rewrite Pos2Z.inj_mul; nia).
  assert (Hn : exists n : positive,
             (Zpos (digits2_pos (mx * mc)) = p + Zpos n)%Z
             /\ (p - 1 <= Zpos n <= p)%Z).
  { destruct (Z_lt_le_dec (Zpos (mx * mc)) (2 * (B * B))) as [Hlt|Hge].
    - exists (Z.to_pos (p - 1)). rewrite Z2Pos.id by lia. split; [|lia].
      apply digits2_pos_unique.
      replace (p + (p - 1) - 1)%Z with (2 * p - 1 - 1)%Z by lia.
      replace (p + (p - 1))%Z with (2 * p - 1)%Z by lia.
      rewrite E1, E2. lia.
    - exists (Z.to_pos p). rewrite Z2Pos.id by lia. split; [|lia].
      apply digits2_pos_unique.
      replace (p + p - 1)%Z with (2 * p - 1)%Z by lia.
      replace (p + p)%Z with (2 * p)%Z by lia.
      rewrite E2, E3. lia. }
  destruct Hn as [n [Dn Hn]].
  destruct (binary_round_aux_normal p emx sx (mx * mc) n (ex + ec))
    as [m1 [my [ey [Hr [Herr [Hval Hmy]]]]]]; try lia.
  exists my, ey. cbn [SFmul]. rewrite xorb_false_r.
  split; [exact Hr|].
  split; [apply digits2_pos_unique; exact Hmy|].
  split; [lia|].
  (* the value of the result is [m1 * 2^(ex + ec + n)] *)
  assert (V : dyadic (Zpos my) ey == dyadic (m1 * 2 ^ Zpos n) (ex + ec)).
  { rewrite dyadic_shift by lia.
    destruct Hval as [[Hm He]|[Hm He]]; rewrite He, <- Hm; [reflexivity|].
    rewrite <- (dyadic_shift (Zpos my) (ex + ec + Zpos n) 1) by lia.
    change (2 ^ 1)%Z with 2%Z. now rewrite Z.mul_comm. }
  rewrite <- dyadic_mul, <- Pos2Z.inj_mul, V, dyadic_sub, dyadic_abs.
  unfold dyadic. rewrite Qmult_assoc, <- inject_Z_mult.
  apply Qmult_le_compat_r; [|apply Qlt_le_weak, pow2_pos].
  rewrite <- Zle_Qle.
  (* 2^p * |m1 * 2^n - N| <= 2^p * 2^(n-1) <= N *)
  assert (EA : (2 ^ (p + Zpos n - 1) = 2 ^ p * 2 ^ (Zpos n - 1))%Z).
  { rewrite <- Z.pow_add_r by lia. f_equal. lia. }
  destruct (digits2_pos_bounds (mx * mc)) as [Nl _]. rewrite Dn, EA in Nl.
  assert (HP : (0 < 2 ^ p)%Z) by (apply Z.pow_pos_nonneg; lia).
  assert (Habs : (Z.abs (m1 * 2 ^ Zpos n - Zpos (mx * mc)) <= 2 ^ (Zpos n - 1))%Z) by lia.
  apply Z.le_trans with (2 := Nl).
  apply Z.mul_le_mono_nonneg_l; [lia|exact Habs].
Qed.

(** *** Two roundings in sequence *)

Lemma Qmult_le_l_weak (a b c : Q) : 0 <= c -> a <= b -> c * a <= c * b.
Proof. intros. nra. Qed.

(** [y] is [x * ca] and [z] is [y * cb], each within the relative error
    [1 / K]; [ca * cb] is 1 within [eta]: then [z] is [x] within any [tol]
    above [(1 + 1/K)^2 (1 + eta) - 1] and [1 - (1 - 1/K)^2 (1 - eta)]. *)
Lemma two_roundings (K x ca cb y z tol : Q) :
  1 <= K -> 0 <= x -> 0 <= ca -> 0 <= cb ->
  K * Qabs (y - x * ca) <= x * ca ->
  K * Qabs (z - y * cb) <= y * cb ->
  (1 + / K) * (1 + / K) * (1 + Qabs (ca * cb - 1)) - 1 <= tol ->
  1 - (1 - / K) * (1 - / K) * (1 - Qabs (ca * cb - 1)) <= tol ->
  Qabs (z - x) <= tol * x.
Proof.
  intros HK Hx Hca Hcb Hy Hz Hup Hdn.
  set (u := / K) in *. set (eta := Qabs (ca * cb - 1)) in *.
  assert (Ku : K * u == 1) by (unfold u; apply Qmult_inv_r; lra).
  assert (Hu0 : 0 <= u) by (unfold u; apply Qinv_le_0_compat; lra).
  assert (Hu1 : u <= 1) by nra.
  assert (Heta : - eta <= ca * cb - 1 <= eta) by (apply Qabs_Qle_condition; unfold eta; lra).
  assert (Hxa : 0 <= x * ca) by nra.
  assert (Hy' : Qabs (y - x * ca) <= u * (x * ca)).
  { assert (0 <= Qabs (y - x * ca)) by apply Qabs_nonneg. nra. }
  apply Qabs_Qle_condition in Hy'.
  assert (Hy0 : 0 <= y) by nra.
  assert (Hyb : 0 <= y * cb) by nra.
  assert (Hz' : Qabs (z - y * cb) <= u * (y * cb)).
  { assert (0 <= Qabs (z - y * cb)) by apply Qabs_nonneg. nra. }
  apply Qabs_Qle_condition in Hz'.
  apply Qabs_Qle_condition.
  assert (U1 : y * cb <= (1 + u) * ((x * ca) * cb)) by nra.
  assert (L1 : (1 - u) * ((x * ca) * cb) <= y * cb) by nra.
  assert (U2 : (x * ca) * cb <= x * (1 + eta)) by nra.
  assert (L2 : x * (1 - eta) <= (x * ca) * cb) by nra.
  split.
  - assert (A1 : (1 - u) * (y * cb) <= z) by lra.
    assert (A2 : (1 - u) * ((1 - u) * (x * ca * cb)) <= (1 - u) * (y * cb))
      by (apply Qmult_le_l_weak; lra).
    assert (A3 : (1 - u) * ((1 - u) * (x * (1 - eta)))
                 <= (1 - u) * ((1 - u) * (x * ca * cb)))
      by (apply Qmult_le_l_weak; [lra|]; apply Qmult_le_l_weak; lra).
    assert (A4 : (1 - tol) * x <= (1 - u) * (1 - u) * (1 - eta) * x)
      by (apply Qmult_le_compat_r; lra).
    lra.
  - assert (A1 : z <= (1 + u) * (y * cb)) by lra.
    assert (A2 : (1 + u) * (y * cb) <= (1 + u) * ((1 + u) * (x * ca * cb)))
      by (apply Qmult_le_l_weak; lra).
    assert (A3 : (1 + u) * ((1 + u) * (x * ca * cb))
                 <= (1 + u) * ((1 + u) * (x * (1 + eta))))
      by (apply Qmult_le_l_weak; [lra|]; apply Qmult_le_l_weak; lra).
    assert (A4 : (1 + u) * (1 + u) * (1 + eta) * x <= (1 + tol) * x)
      by (apply Qmult_le_compat_r; lra).
    lra.
Qed.

(** *** The round trips *)

(** Two successive products by positive normal constants [a] and [b], all
    intermediate results staying in the normal range. *)
Lemma SFmul_twice_normal (p emx : Z) (sx : bool) (mx ma mb : positive)
    (ex ea eb : Z) (tol : Q) :
  (1 < p)%Z ->
  (Zpos (digits2_pos mx) = p)%Z ->
  (Zpos (digits2_pos ma) = p)%Z ->
  (Zpos (digits2_pos mb) = p)%Z ->
  (emin p emx <= ex + ea + p - 1)%Z ->
  (ex + ea + 2 * p + 1 <= emx)%Z ->
  (emin p emx <= ex + ea + eb + 2 * p - 2)%Z ->
  (ex + ea + eb + 3 * p + 2 <= emx)%Z ->
  (1 + / inject_Z (2 ^ p)) * (1 + / inject_Z (2 ^ p))
    * (1 + Qabs (dyadic (Zpos ma) ea * dyadic (Zpos mb) eb - 1)) - 1 <= tol ->
  1 - (1 - / inject_Z (2 ^ p)) * (1 - / inject_Z (2 ^ p))
    * (1 - Qabs (dyadic (Zpos ma) ea * dyadic (Zpos mb) eb - 1)) <= tol ->
  exists (mz : positive) (ez : Z),
    SFmul p emx (SFmul p emx (S754_finite sx mx ex) (S754_finite false ma ea))
      (S754_finite false mb eb) = S754_finite sx mz ez
    /\ Qabs (dyadic (Zpos mz) ez - dyadic (Zpos mx) ex) <= tol * dyadic (Zpos mx) ex.
Proof.
  intros Hp Dx Da Db L1 U1 L2 U2 Tup Tdn.
  destruct (SFmul_normal p emx sx mx ma ex ea Hp Dx Da L1 U1)
    as [my [ey [Ey [Dy [Hey Hy]]]]].
  destruct (SFmul_normal p emx sx my mb ey eb Hp Dy Db)
    as [mz [ez [Ez [Dz [Hez Hz]]]]]; try lia.
  exists mz, ez. rewrite Ey, Ez. split; [reflexivity|].
  apply (two_roundings (inject_Z (2 ^ p)) (dyadic (Zpos mx) ex)
           (dyadic (Zpos ma) ea) (dyadic (Zpos mb) eb)
           (dyadic (Zpos my) ey) (dyadic (Zpos mz) ez) tol);
    try assumption; try (apply dyadic_nonneg; lia).
  change 1 with (inject_Z 1). rewrite <- Zle_Qle.
  assert (0 < 2 ^ p)%Z by (apply Z.pow_pos_nonneg; lia). lia.
Qed.

Lemma within_same_sign (tol : Q) (s : bool) (mx mz : positive) (ex ez : Z) :
  Qabs (dyadic (Zpos mz) ez - dyadic (Zpos mx) ex) <= tol * dyadic (Zpos mx) ex ->
  within tol (S754_finite s mx ex) (S754_finite s mz ez).
Proof.
  intros H. split; [reflexivity|]. cbn [SF2Q].
  assert (Hx : 0 <= dyadic (Zpos mx) ex) by (apply dyadic_nonneg; lia).
  destruct s.
  - assert (E : - dyadic (Zpos mz) ez - - dyadic (Zpos mx) ex
                 == - (dyadic (Zpos mz) ez - dyadic (Zpos mx) ex)) by ring.
    rewrite E, !Qabs_opp, (Qabs_pos _ Hx). exact H.
  - rewrite (Qabs_pos _ Hx). exact H.
Qed.

Lemma within_zero (tol : Q) (s : bool) : within tol (S754_zero s) (S754_zero s).
Proof.
  split; [reflexivity|]. cbn [SF2Q].
  assert (E : 0 - 0 == 0) by ring.
  rewrite E, Qmult_0_r. apply Qle_refl.
Qed.

Lemma round_trip_domain_finite (T : floating_point) (s : bool) (m : positive) (e : Z) :
  round_trip_domain T (S754_finite s m e) = true ->
  (Zpos (digits2_pos m) = prec T
   /\ emin (prec T) (emax T) + 6 <= e <= emax T - prec T - 7)%Z.
Proof.
  cbn [round_trip_domain]. rewrite !andb_true_iff, Z.eqb_eq, !Z.leb_le. lia.
Qed.

(** The ends of the domain: [64 * min] and [max / 128] are inside, their
    neighbours outside are not. *)
Lemma round_trip_domain_ends (T : floating_point) :
  let p := prec T in
  let lo := (emin (prec T) (emax T) + 6)%Z in
  let hi := (emax T - prec T - 7)%Z in
  round_trip_domain T (S754_finite false (Z.to_pos (2 ^ (p - 1))) lo) = true
  /\ round_trip_domain T (S754_finite false (Z.to_pos (2 ^ p - 1)) (lo - 1)) = false
  /\ round_trip_domain T (S754_finite false (Z.to_pos (2 ^ p - 1)) hi) = true
  /\ round_trip_domain T (S754_finite false (Z.to_pos (2 ^ (p - 1))) (hi + 1)) = false
  /\ S754_finite false (Z.to_pos (2 ^ (p - 1))) lo
     = fmul T (of_int T 64) (S754_finite false (Z.to_pos (2 ^ (p - 1))) (lo - 6))
  /\ S754_finite false (Z.to_pos (2 ^ p - 1)) hi
     = fdiv T (SFmax_float (prec T) (emax T)) (of_int T 128).
Proof. destruct T; vm_compute; repeat split. Qed.

(** C5 as stated fails at the largest finite [float]: converted from
    radians to degrees it overflows, and the round trip returns the positive
    infinity, which is within no tolerance of the input. *)
Lemma round_trip_overflows :
  is_finite (SFmax_float (prec float) (emax float)) = true
  /\ round_trip_radians float (SFmax_float (prec float) (emax float))
     = S754_infinity false
  /\ ~ exists tol : Q,
         within tol (SFmax_float (prec float) (emax float))
           (round_trip_radians float (SFmax_float (prec float) (emax float))).
Proof.
  assert (E : round_trip_radians float (SFmax_float (prec float) (emax float))
              = S754_infinity false) by (vm_compute; reflexivity).
  split; [reflexivity|]. split; [exact E|].
  intros [tol [F _]]. rewrite E in F. discriminate F.
Qed.

(** C5, amended: for every payload [x] of precision [T] that is a zero or a
    normal number with [64 * min <= |x| <= max / 128], both round trips
    (degrees to radians to degrees, and radians to degrees to radians)
    return a finite payload [r] with [|r - x| <= 2 * epsilon * |x|], for the
    machine epsilon of [T]. *)
Theorem round_trip_within_tolerance (T : floating_point) (x : spec_float) :
  round_trip_domain T x = true ->
  within (2 * machine_epsilon T) x (round_trip_degrees T x)
  /\ within (2 * machine_epsilon T) x (round_trip_radians T x).
Proof.
  intros D. destruct x as [s|s| |s m e]; try discriminate D.
  - (* zeros are reproduced exactly *)
    split; [replace (round_trip_degrees T (S754_zero s)) with (S754_zero s)
           |replace (round_trip_radians T (S754_zero s)) with (S754_zero s)];
      try apply within_zero; destruct T, s; vm_compute; reflexivity.
  - apply round_trip_domain_finite in D. destruct D as [Dm De].
    unfold round_trip_degrees, round_trip_radians,
      angle_cast_degrees_to_radians, angle_cast_radians_to_degrees, value, fmul.
    cbn [val_].
    destruct T.
    + rewrite degrees_to_radians_factor_float, radians_to_degrees_factor_float.
      cbn [prec emax] in *. unfold emin in De.
      split.
      * destruct (SFmul_twice_normal 24 128 s m 9370165 15019744 e (-29) (-18)
                    (2 * machine_epsilon float)) as [mz [ez [E H]]];
          try exact Dm; try reflexivity; try (unfold emin; lia);
          try (apply Qle_bool_iff; vm_compute; reflexivity).
        rewrite E. apply within_same_sign, H.
      * destruct (SFmul_twice_normal 24 128 s m 15019744 9370165 e (-18) (-29)
                    (2 * machine_epsilon float)) as [mz [ez [E H]]];
          try exact Dm; try reflexivity; try (unfold emin; lia);
          try (apply Qle_bool_iff; vm_compute; reflexivity).
        rewrite E. apply within_same_sign, H.
    + rewrite degrees_to_radians_factor_double, radians_to_degrees_factor_double.
      cbn [prec emax] in *. unfold emin in De.
      split.
      * destruct (SFmul_twice_normal 53 1024 s m 5030569068109113 8063664102031864
                    e (-58) (-47) (2 * machine_epsilon double)) as [mz [ez [E H]]];
          try exact Dm; try reflexivity; try (unfold emin; lia);
          try (apply Qle_bool_iff; vm_compute; reflexivity).
        rewrite E. apply within_same_sign, H.
      * destruct (SFmul_twice_normal 53 1024 s m 8063664102031864 5030569068109113
                    e (-47) (-58) (2 * machine_epsilon double)) as [mz [ez [E H]]];
          try exact Dm; try reflexivity; try (unfold emin; lia);
          try (apply Qle_bool_iff; vm_compute; reflexivity).
        rewrite E. apply within_same_sign, H.
Qed.

Lemma round_trip_within_tolerance_witness :
  round_trip_domain float (of_int float 90) = true
  /\ within (2 * machine_epsilon float) (of_int float 90)
       (round_trip_degrees float (of_int float 90))
  /\ within (2 * machine_epsilon float) (of_int float 90)
       (round_trip_radians float (of_int float 90)).
Proof.
  assert (D : round_trip_domain float (of_int float 90) = true) by reflexivity.
  split; [exact D|].
  exact (round_trip_within_tolerance float (of_int float 90) D).
Defined.

(** * Further properties *)

Local Open Scope Z_scope.

(** ** Negation, addition, subtraction *)

Lemma SFopp_involutive (x : spec_float) : SFopp (SFopp x) = x.
Proof. destruct x as [s|s| |s m e]; simpl; now rewrite ?negb_involutive. Qed.

Lemma SFsub_add_opp (p e : Z) (x y : spec_float) :
  SFsub p e x y = SFadd p e x (SFopp y).
Proof.
  destruct x as [sx|sx| |sx mx ex], y as [sy|sy| |sy my ey]; simpl;
    try reflexivity; destruct sx, sy; reflexivity.
Qed.

Lemma SFadd_comm (p e : Z) (x y : spec_float) : SFadd p e x y = SFadd p e y x.
Proof.
  destruct x as [sx|sx| |sx mx ex], y as [sy|sy| |sy my ey]; simpl;
    try reflexivity; try (destruct sx, sy; reflexivity).
  rewrite (Z.min_comm ey ex), Z.add_comm. reflexivity.
Qed.

(** X1: negating twice returns the value itself, also for zeros, infinities and
    NaN; unary plus returns its operand. *)
Theorem neg_involutive (T : floating_point) (Tag : unit_tag) (a : angle_unit T Tag) :
  neg (neg a) = a /\ pos a = a.
Proof.
  split; [|reflexivity]. destruct a as [v]. unfold neg, fneg. cbn [val_].
  now rewrite SFopp_involutive.
Qed.

(** X2: [a - b] is [a + (-b)], payload for payload, special values
    included. *)
Theorem sub_is_add_neg (T : floating_point) (Tag : unit_tag) (a b : angle_unit T Tag) :
  sub a b = add a (neg b).
Proof. unfold sub, add, neg, fsub, fadd, fneg. cbn [val_]. now rewrite SFsub_add_opp. Qed.

(** X3: [a + b] and [b + a] are the same value. *)
Theorem add_comm (T : floating_point) (Tag : unit_tag) (a b : angle_unit T Tag) :
  add a b = add b a.
Proof. unfold add, fadd. now rewrite SFadd_comm. Qed.

(** X4: a default-constructed angle (payload [+0]) subtracted from [a] leaves
    [a]; added to [a] it leaves [a] except when the payload of [a] is [-0],
    where the sum is [+0]. *)
Theorem default_angle_neutral (T : floating_point) (Tag : unit_tag) (a : angle_unit T Tag) :
  sub a default_angle = a
  /\ add a default_angle
     = match value a with S754_zero true => default_angle | _ => a end
  /\ add default_angle a = add a default_angle.
Proof.
  destruct a as [v]. unfold sub, add, default_angle, value, fsub, fadd. cbn [val_].
  destruct v as [[|]| | |]; repeat split.
Qed.

(** X5: [a - a] has payload [+0] when the payload of [a] is finite and NaN
    when it is an infinity or NaN. *)
Theorem sub_self (T : floating_point) (Tag : unit_tag) (a : angle_unit T Tag) :
  value (sub a a) = if is_finite (value a) then S754_zero false else S754_nan.
Proof.
  destruct a as [v]. unfold sub, value, fsub. cbn [val_].
  destruct v as [[|]|[|]| |s m e]; try reflexivity.
  cbn [SFsub is_finite]. rewrite Z.sub_diag. reflexivity.
Qed.

(** ** Ordering *)

Lemma SFcompare_antisym (x y : spec_float) :
  SFcompare y x = option_map CompOpp (SFcompare x y).
Proof.
  destruct x as [sx|sx| |sx mx ex], y as [sy|sy| |sy my ey]; simpl;
    try reflexivity; try (destruct sx; reflexivity); try (destruct sy; reflexivity);
    try (destruct sx, sy; reflexivity).
  f_equal. change (Pos.compare_cont Eq my mx) with (Pos.compare my mx).
  change (Pos.compare_cont Eq mx my) with (Pos.compare mx my).
  rewrite (Z.compare_antisym ex ey), (Pos.compare_antisym mx my).
  destruct sx, sy; try reflexivity;
    destruct (ex ?= ey); simpl; rewrite ?CompOpp_involutive; reflexivity.
Qed.

Lemma SFcompare_opp (x y : spec_float) :
  SFcompare (SFopp x) (SFopp y) = SFcompare y x.
Proof.
  destruct x as [sx|sx| |sx mx ex], y as [sy|sy| |sy my ey]; simpl;
    try reflexivity; try (destruct sx; reflexivity); try (destruct sy; reflexivity);
    try (destruct sx, sy; reflexivity).
  f_equal. change (Pos.compare_cont Eq my mx) with (Pos.compare my mx).
  change (Pos.compare_cont Eq mx my) with (Pos.compare mx my).
  rewrite (Z.compare_antisym ex ey), (Pos.compare_antisym mx my).
  destruct sx, sy; try reflexivity;
    destruct (ex ?= ey); simpl; rewrite ?CompOpp_involutive; reflexivity.
Qed.

(** X6: swapping the operands of [<=>] mirrors the result ([unordered] stays
    [unordered]): [b > a] is [a < b], [b >= a] is [a <= b], and [a < b] and
    [b < a] never both hold. *)
Theorem cmp_antisym (T : floating_point) (Tag : unit_tag) (a b : angle_unit T Tag) :
  cmp b a = option_map CompOpp (cmp a b)
  /\ gt b a = lt a b
  /\ ge b a = le a b
  /\ lt a b && lt b a = false.
Proof.
  assert (H : cmp b a = option_map CompOpp (cmp a b)) by apply SFcompare_antisym.
  unfold lt, gt, le, ge. rewrite H.
  destruct (cmp a b) as [[| |]|]; repeat split.
Qed.

(** X7: negation reverses the order: [-a <=> -b] is [b <=> a]. *)
Theorem neg_reverses_order (T : floating_point) (Tag : unit_tag) (a b : angle_unit T Tag) :
  cmp (neg a) (neg b) = cmp b a
  /\ lt (neg a) (neg b) = lt b a
  /\ le (neg a) (neg b) = le b a.
Proof.
  assert (H : cmp (neg a) (neg b) = cmp b a) by apply SFcompare_opp.
  unfold lt, le. rewrite H. repeat split.
Qed.

(** X8: [a <=> b] is [equivalent] exactly when the payloads are the same
    non-NaN number or are both zeros (of any signs): [+0] and [-0] compare
    equivalent, and a NaN is equivalent to nothing, itself included. *)
Theorem cmp_eq_iff (T : floating_point) (Tag : unit_tag) (a b : angle_unit T Tag) :
  cmp a b = Some Eq
  <-> (value a = value b /\ value a <> S754_nan)
      \/ (is_zero (value a) = true /\ is_zero (value b) = true).
Proof.
  destruct a as [x], b as [y]. unfold cmp, spaceship, value. cbn [val_].
  split.
  - destruct x as [sx|sx| |sx mx ex], y as [sy|sy| |sy my ey]; simpl;
      try discriminate; try (destruct sx; discriminate);
      try (destruct sy; discriminate).
    + right. split; reflexivity.
    + destruct sx, sy; try discriminate; left; split; congruence.
    + intros H. left. split; [|discriminate].
      assert (sx = sy /\ ex = ey /\ mx = my) as (-> & -> & ->).
      { change (Pos.compare_cont Eq mx my) with (Pos.compare mx my) in H.
        destruct sx, sy; try discriminate;
          destruct (ex ?= ey) eqn:E; try discriminate;
          apply Z.compare_eq in E; injection H as H;
          try (apply (f_equal CompOpp) in H; rewrite CompOpp_involutive in H;
               simpl in H);
          apply Pos.compare_eq in H; auto. }
      reflexivity.
  - intros [[H N]|[Hx Hy]].
    + subst y. destruct x as [sx|sx| |sx mx ex]; simpl; try congruence.
      * destruct sx; reflexivity.
      * change (Pos.compare_cont Eq mx mx) with (Pos.compare mx mx).
        rewrite Z.compare_refl, Pos.compare_refl. destruct sx; reflexivity.
    + destruct x, y; try discriminate. reflexivity.
Qed.

(** ** Ordering and numeric value *)

Local Open Scope Q_scope.

Lemma dyadic_lt (m m' e : Z) : (m < m')%Z -> dyadic m e < dyadic m' e.
Proof.
  intros H. unfold dyadic. apply Qmult_lt_compat_r; [apply pow2_pos|].
  rewrite <- Zlt_Qlt. exact H.
Qed.

Lemma dyadic_pos (m : positive) (e : Z) : 0 < dyadic (Zpos m) e.
Proof.
  unfold dyadic. apply Qmult_lt_0_compat; [reflexivity|apply pow2_pos].
Qed.

Lemma canonical_mantissa_cases (p emx : Z) (m : positive) (e : Z) :
  canonical_mantissa p emx m e = true ->
  ((Zpos (digits2_pos m) = p /\ emin p emx <= e)
   \/ (Zpos (digits2_pos m) < p /\ e = emin p emx))%Z.
Proof.
  unfold canonical_mantissa, fexp. rewrite Z.eqb_eq. lia.
Qed.

(** Two canonical significand-exponent pairs with the smaller exponent
    first. *)
Lemma canonical_exponent_lt (p emx : Z) (m1 m2 : positive) (e1 e2 : Z) :
  canonical_mantissa p emx m1 e1 = true ->
  canonical_mantissa p emx m2 e2 = true ->
  (e1 < e2)%Z ->
  dyadic (Zpos m1) e1 < dyadic (Zpos m2) e2.
Proof.
  intros C1 C2 H.
  apply canonical_mantissa_cases in C1, C2.
  destruct (digits2_pos_bounds m1) as [_ U1].
  destruct (digits2_pos_bounds m2) as [L2 _].
  assert (D2 : Zpos (digits2_pos m2) = p) by lia.
  assert (D1 : (Zpos (digits2_pos m1) <= p)%Z) by lia.
  assert (Hp : (0 < p)%Z) by lia.
  rewrite D2 in L2.
  assert (U1' : (Zpos m1 < 2 ^ p)%Z).
  { apply Z.lt_le_trans with (1 := U1). apply Z.pow_le_mono_r; lia. }
  replace e2 with (e1 + (e2 - e1))%Z by lia.
  rewrite <- dyadic_shift by lia.
  apply dyadic_lt.
  assert (E : (2 ^ p = 2 ^ (p - 1) * 2)%Z).
  { rewrite Z.mul_comm, <- Z.pow_succ_r by lia. f_equal. lia. }
  assert (K : (2 ^ 1 <= 2 ^ (e2 - e1))%Z) by (apply Z.pow_le_mono_r; lia).
  change (2 ^ 1)%Z with 2%Z in K.
  assert (0 < 2 ^ (p - 1))%Z by (apply Z.pow_pos_nonneg; lia).
  nia.
Qed.

Lemma compare_canonical (p emx : Z) (m1 m2 : positive) (e1 e2 : Z) :
  canonical_mantissa p emx m1 e1 = true ->
  canonical_mantissa p emx m2 e2 = true ->
  match (match (e1 ?= e2)%Z with
         | Lt => Lt | Gt => Gt | Eq => Pos.compare_cont Eq m1 m2
         end) with
  | Lt => dyadic (Zpos m1) e1 < dyadic (Zpos m2) e2
  | Eq => m1 = m2 /\ e1 = e2
  | Gt => dyadic (Zpos m2) e2 < dyadic (Zpos m1) e1
  end.
Proof.
  intros C1 C2. destruct (e1 ?= e2)%Z eqn:E.
  - apply Z.compare_eq in E. subst e2.
    change (Pos.compare_cont Eq m1 m2) with (Pos.compare m1 m2).
    destruct (Pos.compare m1 m2) eqn:M.
    + apply Pos.compare_eq in M. auto.
    + apply dyadic_lt. exact M.
    + apply dyadic_lt. apply Pos.compare_gt_iff in M. exact M.
  - apply (canonical_exponent_lt p emx m1 m2 e1 e2 C1 C2).
    apply Z.compare_lt_iff. exact E.
  - apply (canonical_exponent_lt p emx m2 m1 e2 e1 C2 C1).
    apply Z.compare_gt_iff in E. exact E.
Qed.

(** On valid finite numbers the comparison is the comparison of the
    rational values. *)
Lemma SFcompare_value (p emx : Z) (x y : spec_float) :
  valid_binary p emx x = true -> valid_binary p emx y = true ->
  is_finite x = true -> is_finite y = true ->
  match SFcompare x y with
  | Some Lt => SF2Q x < SF2Q y
  | Some Eq => SF2Q x == SF2Q y
  | Some Gt => SF2Q y < SF2Q x
  | None => False
  end.
Proof.
  intros Vx Vy Fx Fy.
  destruct x as [sx|sx| |sx mx ex], y as [sy|sy| |sy my ey]; try discriminate;
    cbn [SFcompare SF2Q].
  - reflexivity.
  - pose proof (dyadic_pos my ey). destruct sy; lra.
  - pose proof (dyadic_pos mx ex). destruct sx; lra.
  - cbn [valid_binary] in Vx, Vy. unfold bounded in Vx, Vy.
    apply andb_true_iff in Vx, Vy. destruct Vx as [Cx _], Vy as [Cy _].
    pose proof (dyadic_pos mx ex). pose proof (dyadic_pos my ey).
    pose proof (compare_canonical p emx mx my ex ey Cx Cy) as K.
    destruct sx, sy; try lra.
    + destruct (ex ?= ey)%Z; [|lra|lra].
      destruct (Pos.compare_cont Eq mx my); cbn [CompOpp];
        [destruct K as [-> ->]; reflexivity|lra|lra].
    + destruct (ex ?= ey)%Z; [|lra|lra].
      destruct (Pos.compare_cont Eq mx my);
        [destruct K as [-> ->]; reflexivity|lra|lra].
Qed.

(** X9: on valid finite payloads, [<], [<=] and equivalence are those of the
    rational values of the payloads. *)
Theorem lt_is_numeric_order (T : floating_point) (Tag : unit_tag) (a b : angle_unit T Tag) :
  valid_binary (prec T) (emax T) (value a) = true ->
  valid_binary (prec T) (emax T) (value b) = true ->
  is_finite (value a) = true -> is_finite (value b) = true ->
  (lt a b = true <-> SF2Q (value a) < SF2Q (value b))
  /\ (le a b = true <-> SF2Q (value a) <= SF2Q (value b))
  /\ (cmp a b = Some Eq <-> SF2Q (value a) == SF2Q (value b)).
Proof.
  intros Va Vb Fa Fb.
  pose proof (SFcompare_value _ _ _ _ Va Vb Fa Fb) as K.
  unfold lt, le, cmp, spaceship, value in *.
  destruct (SFcompare (val_ a) (val_ b)) as [[| |]|]; cbn [is_lt is_lteq];
    repeat split; intros; try reflexivity; try discriminate; try lra; try tauto.
Qed.

Lemma lt_is_numeric_order_witness :
  lt (example_angle 45) (example_angle 90) = true
  <-> SF2Q (value (example_angle 45)) < SF2Q (value (example_angle 90)).
Proof.
  exact (proj1 (lt_is_numeric_order float degrees_tag (example_angle 45)
                  (example_angle 90) eq_refl eq_refl eq_refl eq_refl)).
Defined.

(** ** Exact roundings *)

Local Open Scope Z_scope.

Lemma shr_fexp_canonical (p emx : Z) (m : positive) (e : Z) :
  canonical_mantissa p emx m e = true ->
  shr_fexp p emx (Zpos m) e loc_Exact = (Build_shr_record (Zpos m) false false, e).
Proof.
  unfold canonical_mantissa. rewrite Z.eqb_eq. intros C.
  unfold shr_fexp. cbn [Zdigits2 shr_record_of_loc]. rewrite C, Z.sub_diag.
  reflexivity.
Qed.

(** A number already in canonical form is its own rounding. *)
Lemma binary_round_aux_canonical (p emx : Z) (s : bool) (m : positive) (e : Z) :
  bounded p emx m e = true ->
  binary_round_aux p emx s (Zpos m) e loc_Exact = S754_finite s m e.
Proof.
  unfold bounded. rewrite andb_true_iff. intros [C B].
  unfold binary_round_aux. rewrite shr_fexp_canonical by exact C.
  cbn [shr_m loc_of_shr_record round_nearest_even].
  rewrite shr_fexp_canonical by exact C. cbn [shr_m]. rewrite B. reflexivity.
Qed.

Lemma binary_round_canonical (p emx : Z) (s : bool) (m : positive) (e : Z) :
  bounded p emx m e = true ->
  binary_round p emx s m e = S754_finite s m e.
Proof.
  intros B. unfold binary_round.
  assert (C : fexp p emx (Zpos (digits2_pos m) + e) = e).
  { unfold bounded, canonical_mantissa in B. apply andb_true_iff in B.
    apply Z.eqb_eq, B. }
  rewrite C. unfold shl_align. rewrite Z.sub_diag.
  apply binary_round_aux_canonical, B.
Qed.

(** A canonical number scaled by [2^k] and rounded at the exponent lowered
    by [k] is unchanged. *)
Lemma binary_round_aux_scaled (p emx : Z) (s : bool) (m N : positive) (e k : Z) :
  bounded p emx m e = true ->
  0 <= k ->
  Zpos N = Zpos m * 2 ^ k ->
  binary_round_aux p emx s (Zpos N) (e - k) loc_Exact = S754_finite s m e.
Proof.
  intros B Hk HN.
  destruct (Z.eq_dec k 0) as [->|Hk0].
  { rewrite Z.mul_1_r in HN. injection HN as ->. rewrite Z.sub_0_r.
    apply binary_round_aux_canonical, B. }
  assert (C : fexp p emx (Zpos (digits2_pos m) + e) = e).
  { unfold bounded, canonical_mantissa in B. apply andb_true_iff in B.
    apply Z.eqb_eq, B. }
  assert (Ble : (e <=? emx - p) = true).
  { unfold bounded in B. apply andb_true_iff in B. apply B. }
  destruct (digits2_pos_bounds m) as [Ml Mu].
  set (d := Zpos (digits2_pos m)) in *.
  assert (Hd : 0 < d) by (unfold d; lia).
  assert (DN : Zpos (digits2_pos N) = d + k).
  { apply digits2_pos_unique. rewrite HN.
    replace (d + k - 1) with ((d - 1) + k) by lia.
    rewrite !Z.pow_add_r by lia.
    assert (0 < 2 ^ k) by (apply Z.pow_pos_nonneg; lia). nia. }
  destruct k as [|n|n]; try lia.
  set (j := Nat.pred (Pos.to_nat n)).
  assert (Hj : Z.of_nat j = Zpos n - 1) by (unfold j; lia).
  assert (S1 : shr_fexp p emx (Zpos N) (e - Zpos n) loc_Exact
               = (Build_shr_record (Zpos m) false false, e)).
  { unfold shr_fexp. cbn [Zdigits2 shr_record_of_loc]. rewrite DN.
    replace (d + Zpos n + (e - Zpos n)) with (d + e) by lia. rewrite C.
    replace (e - (e - Zpos n)) with (Zpos n) by lia.
    rewrite shr_pos. fold j. replace (e - Zpos n + Zpos n) with e by lia.
    f_equal.
    destruct (shifted_spec (Zpos N) j (Pos2Z.is_nonneg N))
      as [Hm [rem [Hrem [HNeq Hs]]]].
    destruct (shifted (Zpos N) j) as [m' r' s']. cbn [shr_m shr_r shr_s] in *.
    rewrite Hj in *. replace (Zpos n - 1 + 1) with (Zpos n) in HNeq by lia.
    assert (EA : 2 ^ Zpos n = 2 * 2 ^ (Zpos n - 1)).
    { rewrite <- Z.pow_succ_r by lia. f_equal. lia. }
    assert (HA : 0 < 2 ^ (Zpos n - 1)) by (apply Z.pow_pos_nonneg; lia).
    rewrite HN, EA in HNeq.
    set (A := 2 ^ (Zpos n - 1)) in *.
    assert (Hb : 0 <= Z.b2z r' <= 1) by (destruct r'; simpl; lia).
    assert (Em : m' = Zpos m) by nia.
    subst m'.
    assert (Er : Z.b2z r' * A + rem = 0) by lia.
    assert (Z.b2z r' = 0) by nia.
    assert (rem = 0) by nia.
    subst rem. destruct r'; [discriminate|]. rewrite Hs. reflexivity. }
  unfold binary_round_aux. rewrite S1.
  cbn [shr_m loc_of_shr_record round_nearest_even].
  rewrite shr_fexp_canonical; cbn [shr_m].
  - rewrite Ble. reflexivity.
  - unfold canonical_mantissa. fold d. rewrite C. apply Z.eqb_refl.
Qed.

Lemma SFmul_one (T : floating_point) (x : spec_float) :
  valid_binary (prec T) (emax T) x = true ->
  fmul T x (of_int T 1) = x.
Proof.
  intros V. unfold fmul.
  destruct x as [s|s| |s m e]; destruct T; try (destruct s; reflexivity);
    try reflexivity.
  - change (of_int float 1) with (S754_finite false 8388608 (-23)).
    cbn [SFmul]. rewrite xorb_false_r.
    replace (e + -23) with (e - 23) by lia.
    apply binary_round_aux_scaled; [exact V|lia|].
    rewrite Pos2Z.inj_mul. reflexivity.
  - change (of_int double 1) with (S754_finite false 4503599627370496 (-52)).
    cbn [SFmul]. rewrite xorb_false_r.
    replace (e + -52) with (e - 52) by lia.
    apply binary_round_aux_scaled; [exact V|lia|].
    rewrite Pos2Z.inj_mul. reflexivity.
Qed.

Lemma SFmul_minus_one (T : floating_point) (x : spec_float) :
  valid_binary (prec T) (emax T) x = true ->
  fmul T x (of_int T (-1)) = fneg x.
Proof.
  intros V. unfold fmul, fneg.
  destruct x as [s|s| |s m e]; destruct T; try (destruct s; reflexivity);
    try reflexivity.
  - change (of_int float (-1)) with (S754_finite true 8388608 (-23)).
    cbn [SFmul SFopp]. rewrite xorb_true_r.
    replace (e + -23) with (e - 23) by lia.
    apply binary_round_aux_scaled; [exact V|lia|].
    rewrite Pos2Z.inj_mul. reflexivity.
  - change (of_int double (-1)) with (S754_finite true 4503599627370496 (-52)).
    cbn [SFmul SFopp]. rewrite xorb_true_r.
    replace (e + -52) with (e - 52) by lia.
    apply binary_round_aux_scaled; [exact V|lia|].
    rewrite Pos2Z.inj_mul. reflexivity.
Qed.


(** ** Conversions: sign, special values, accuracy *)

Lemma binary_round_aux_opp (p emx : Z) (s : bool) (m e : Z) (l : location) :
  SFopp (binary_round_aux p emx s m e l) = binary_round_aux p emx (negb s) m e l.
Proof.
  unfold binary_round_aux.
  destruct (shr_fexp p emx m e l) as [mrs' e'].
  destruct (shr_fexp p emx _ e' loc_Exact) as [mrs'' e''].
  destruct (shr_m mrs''); try reflexivity.
  destruct (e'' <=? emx - p); reflexivity.
Qed.

Lemma SFmul_opp_l (p emx : Z) (x y : spec_float) :
  SFmul p emx (SFopp x) y = SFopp (SFmul p emx x y).
Proof.
  destruct x as [sx|sx| |sx mx ex], y as [sy|sy| |sy my ey]; cbn [SFmul SFopp];
    rewrite <- ?negb_xorb_l; try reflexivity.
  symmetry. apply binary_round_aux_opp.
Qed.

Lemma factors_positive (T : floating_point) :
  (exists m e, degrees_to_radians_factor T = S754_finite false m e)
  /\ (exists m e, radians_to_degrees_factor T = S754_finite false m e).
Proof.
  destruct T.
  - rewrite degrees_to_radians_factor_float, radians_to_degrees_factor_float;
      split; eauto.
  - rewrite degrees_to_radians_factor_double, radians_to_degrees_factor_double;
      split; eauto.
Qed.

(** X11: both conversions commute with negation, for every payload. *)
Theorem angle_cast_neg (T : floating_point) (d : degrees T) (r : radians T) :
  angle_cast_degrees_to_radians (neg d) = neg (angle_cast_degrees_to_radians d)
  /\ angle_cast_radians_to_degrees (neg r) = neg (angle_cast_radians_to_degrees r).
Proof.
  unfold angle_cast_degrees_to_radians, angle_cast_radians_to_degrees, neg, value,
    fmul, fneg. cbn [val_]. now rewrite !SFmul_opp_l.
Qed.

(** X12: both conversions map a zero to the zero of the same sign, an
    infinity to the infinity of the same sign, and NaN to NaN. *)
Theorem angle_cast_special_values (T : floating_point) (s : bool) :
  value (angle_cast_degrees_to_radians (mk_angle_unit (S754_zero s) : degrees T))
    = S754_zero s
  /\ value (angle_cast_radians_to_degrees (mk_angle_unit (S754_zero s) : radians T))
    = S754_zero s
  /\ value (angle_cast_degrees_to_radians (mk_angle_unit (S754_infinity s) : degrees T))
    = S754_infinity s
  /\ value (angle_cast_radians_to_degrees (mk_angle_unit (S754_infinity s) : radians T))
    = S754_infinity s
  /\ value (angle_cast_degrees_to_radians (mk_angle_unit S754_nan : degrees T))
    = S754_nan
  /\ value (angle_cast_radians_to_degrees (mk_angle_unit S754_nan : radians T))
    = S754_nan.
Proof.
  destruct (factors_positive T) as [[m1 [e1 E1]] [m2 [e2 E2]]].
  unfold angle_cast_degrees_to_radians, angle_cast_radians_to_degrees, value, fmul.
  cbn [val_]. rewrite E1, E2. cbn [SFmul]. rewrite xorb_false_r. repeat split.
Qed.

Local Open Scope Q_scope.

Lemma relative_error_same_sign (K u : Q) (s : bool) (mx my mc : positive)
    (ex ey ec : Z) :
  0 < K -> u == / K ->
  K * Qabs (dyadic (Zpos my) ey - dyadic (Zpos mx) ex * dyadic (Zpos mc) ec)
    <= dyadic (Zpos mx) ex * dyadic (Zpos mc) ec ->
  Qabs (SF2Q (S754_finite s my ey)
        - SF2Q (S754_finite s mx ex) * SF2Q (S754_finite false mc ec))
  <= u * Qabs (SF2Q (S754_finite s mx ex) * SF2Q (S754_finite false mc ec)).
Proof.
  intros HK Hu H. cbn [SF2Q].
  set (X := dyadic (Zpos mx) ex) in *. set (C := dyadic (Zpos mc) ec) in *.
  set (Y := dyadic (Zpos my) ey) in *.
  assert (HX : 0 <= X * C).
  { apply Qmult_le_0_compat; apply dyadic_nonneg; lia. }
  assert (Ku : K * u == 1) by (rewrite Hu; apply Qmult_inv_r; lra).
  assert (Hu0 : 0 <= u) by (rewrite Hu; apply Qinv_le_0_compat; lra).
  assert (A0 : 0 <= Qabs (Y - X * C)) by apply Qabs_nonneg.
  assert (B : Qabs (Y - X * C) <= u * (X * C)) by nra.
  destruct s.
  - assert (E1 : - Y - - X * C == - (Y - X * C)) by ring.
    assert (E2 : - X * C == - (X * C)) by ring.
    rewrite E1, E2, !Qabs_opp, (Qabs_pos _ HX). exact B.
  - rewrite (Qabs_pos _ HX). exact B.
Qed.

(** One conversion of a payload of the round-trip domain by a positive
    normal factor. *)
Lemma conversion_accuracy (T : floating_point) (x c : spec_float) (mc : positive) (ec : Z) :
  c = S754_finite false mc ec ->
  (Zpos (digits2_pos mc) = prec T)%Z ->
  (- 5 - prec T <= ec <= 6 - prec T)%Z ->
  round_trip_domain T x = true ->
  is_finite (fmul T x c) = true
  /\ Qabs (SF2Q (fmul T x c) - SF2Q x * SF2Q c)
     <= (1 # 2) * machine_epsilon T * Qabs (SF2Q x * SF2Q c).
Proof.
  intros -> Dc Hec D. unfold fmul.
  destruct x as [s|s| |s m e]; try discriminate D.
  - cbn [SFmul SF2Q is_finite]. split; [reflexivity|].
    assert (E : 0 - 0 * dyadic (Zpos mc) ec == 0) by ring.
    assert (E' : 0 * dyadic (Zpos mc) ec == 0) by ring.
    rewrite E, E'. cbn [Qabs]. rewrite Qmult_0_r. apply Qle_refl.
  - apply round_trip_domain_finite in D. destruct D as [Dm De].
    assert (Hp : (1 < prec T)%Z) by (destruct T; reflexivity).
    destruct (SFmul_normal (prec T) (emax T) s m mc e ec Hp Dm Dc)
      as [my [ey [E [_ [_ H]]]]].
    + destruct T; cbn [prec emax] in *; unfold emin in *; lia.
    + destruct T; cbn [prec emax] in *; unfold emin in *; lia.
    + rewrite E. split; [reflexivity|].
      apply (relative_error_same_sign (inject_Z (2 ^ prec T))); [| |exact H].
      * destruct T; reflexivity.
      * destruct T; vm_compute; reflexivity.
Qed.

(** X13: on the round-trip domain each conversion returns a finite payload
    within the relative error [epsilon / 2] of the exact product of the
    payload by the conversion factor. *)
Theorem angle_cast_correctly_rounded (T : floating_point) (x : spec_float) :
  round_trip_domain T x = true ->
  let r := value (angle_cast_degrees_to_radians (mk_angle_unit x : degrees T)) in
  let d := value (angle_cast_radians_to_degrees (mk_angle_unit x : radians T)) in
  is_finite r = true
  /\ Qabs (SF2Q r - SF2Q x * SF2Q (degrees_to_radians_factor T))
     <= (1 # 2) * machine_epsilon T
        * Qabs (SF2Q x * SF2Q (degrees_to_radians_factor T))
  /\ is_finite d = true
  /\ Qabs (SF2Q d - SF2Q x * SF2Q (radians_to_degrees_factor T))
     <= (1 # 2) * machine_epsilon T
        * Qabs (SF2Q x * SF2Q (radians_to_degrees_factor T)).
Proof.
  intros D r d. subst r d.
  unfold angle_cast_degrees_to_radians, angle_cast_radians_to_degrees, value.
  cbn [val_].
  assert (A : exists m1 e1 m2 e2,
             degrees_to_radians_factor T = S754_finite false m1 e1
             /\ radians_to_degrees_factor T = S754_finite false m2 e2
             /\ Zpos (digits2_pos m1) = prec T /\ Zpos (digits2_pos m2) = prec T
             /\ (- 5 - prec T <= e1 <= 6 - prec T)%Z
             /\ (- 5 - prec T <= e2 <= 6 - prec T)%Z).
  { destruct T.
    - rewrite degrees_to_radians_factor_float, radians_to_degrees_factor_float.
      do 4 eexists. repeat split; try reflexivity; cbn [prec]; lia.
    - rewrite degrees_to_radians_factor_double, radians_to_degrees_factor_double.
      do 4 eexists. repeat split; try reflexivity; cbn [prec]; lia. }
  destruct A as (m1 & e1 & m2 & e2 & E1 & E2 & D1 & D2 & H1 & H2).
  destruct (conversion_accuracy T x _ m1 e1 E1 D1 H1 D) as [F1 A1].
  destruct (conversion_accuracy T x _ m2 e2 E2 D2 H2 D) as [F2 A2].
  repeat split; assumption.
Qed.

Lemma angle_cast_correctly_rounded_witness :
  round_trip_domain float (of_int float 90) = true
  /\ is_finite (value (angle_cast_degrees_to_radians
                         (mk_angle_unit (of_int float 90) : degrees float))) = true.
Proof.
  split; [reflexivity|].
  exact (proj1 (angle_cast_correctly_rounded float (of_int float 90) eq_refl)).
Defined.

(** ** Division by one *)

Local Open Scope Z_scope.

Lemma Zdigits2_pow2 (k : Z) : 0 <= k -> Zdigits2 (2 ^ k) = k + 1.
Proof.
  intros Hk. assert (H : 0 < 2 ^ k) by (apply Z.pow_pos_nonneg; lia).
  destruct (2 ^ k) as [|q|q] eqn:E; try lia.
  cbn [Zdigits2]. apply digits2_pos_unique. rewrite <- E.
  replace (k + 1 - 1) with k by lia.
  rewrite Z.add_1_r, Z.pow_succ_r by lia. lia.
Qed.

Lemma SFdiv_core_one (p emx : Z) (m : positive) (e : Z) :
  1 < p ->
  canonical_mantissa p emx m e = true ->
  exists k, 0 <= k
    /\ SFdiv_core_binary p emx (Zpos m) e (2 ^ (p - 1)) (1 - p)
       = (Zpos m * 2 ^ k, e - k, loc_Exact).
Proof.
  intros Hp C. apply canonical_mantissa_cases in C.
  unfold SFdiv_core_binary. rewrite Zdigits2_pow2 by lia. cbn [Zdigits2].
  set (d := Zpos (digits2_pos m)) in *.
  set (e' := Z.min (fexp p emx (d + e - (p - 1 + 1 + (1 - p)))) (e - (1 - p))).
  assert (Hk : e' = e \/ e' = e - 1) by (unfold e', fexp; lia).
  set (k := e - e').
  assert (Es : e - (1 - p) - e' = (p - 1) + k) by (unfold k; lia).
  exists k. split; [unfold k; lia|].
  rewrite Es.
  assert (Hs : 0 < p - 1 + k) by (unfold k; lia).
  destruct (p - 1 + k) as [|sp|sp] eqn:Esp; try lia.
  rewrite Z.shiftl_mul_pow2 by lia. rewrite <- Esp.
  assert (P : 0 < 2 ^ (p - 1)) by (apply Z.pow_pos_nonneg; lia).
  assert (Eq : Zpos m * 2 ^ (p - 1 + k) = (Zpos m * 2 ^ k) * 2 ^ (p - 1)).
  { rewrite Z.pow_add_r by (unfold k; lia). ring. }
  rewrite Eq.
  destruct (Z.div_eucl (Zpos m * 2 ^ k * 2 ^ (p - 1)) (2 ^ (p - 1))) as [q r] eqn:E.
  assert (Hq : q = Zpos m * 2 ^ k).
  { transitivity ((Zpos m * 2 ^ k * 2 ^ (p - 1)) / 2 ^ (p - 1)).
    - unfold Z.div. rewrite E. reflexivity.
    - apply Z.div_mul. lia. }
  assert (Hr : r = 0).
  { transitivity ((Zpos m * 2 ^ k * 2 ^ (p - 1)) mod 2 ^ (p - 1)).
    - unfold Z.modulo. rewrite E. reflexivity.
    - apply Z.mod_mul. lia. }
  subst q r. replace (e - k) with e' by (unfold k; lia).
  f_equal. unfold new_location, new_location_even, new_location_odd.
  destruct (Z.even (2 ^ (p - 1))); reflexivity.
Qed.

Lemma SFdiv_one_finite (p emx : Z) (s : bool) (m one : positive) (e : Z) :
  1 < p ->
  bounded p emx m e = true ->
  Zpos one = 2 ^ (p - 1) ->
  SFdiv p emx (S754_finite s m e) (S754_finite false one (1 - p))
  = S754_finite s m e.
Proof.
  intros Hp B H1. cbn [SFdiv]. rewrite H1, xorb_false_r.
  assert (C : canonical_mantissa p emx m e = true).
  { unfold bounded in B. apply andb_true_iff in B. apply B. }
  destruct (SFdiv_core_one p emx m e Hp C) as [k [Hk E]]. rewrite E.
  assert (0 < Zpos m * 2 ^ k).
  { assert (0 < 2 ^ k) by (apply Z.pow_pos_nonneg; lia). lia. }
  destruct (Zpos m * 2 ^ k) as [|N|N] eqn:EN; try lia.
  apply binary_round_aux_scaled; [exact B|exact Hk|symmetry; exact EN].
Qed.

Lemma SFdiv_one (T : floating_point) (x : spec_float) :
  valid_binary (prec T) (emax T) x = true ->
  fdiv T x (of_int T 1) = x.
Proof.
  intros V. unfold fdiv.
  destruct x as [s|s| |s m e]; destruct T; try (destruct s; reflexivity);
    try reflexivity.
  - change (of_int float 1) with (S754_finite false 8388608 (1 - prec float)).
    apply SFdiv_one_finite; [reflexivity|exact V|reflexivity].
  - change (of_int double 1) with (S754_finite false 4503599627370496 (1 - prec double)).
    apply SFdiv_one_finite; [reflexivity|exact V|reflexivity].
Qed.

(** X10: for a valid payload (subnormal numbers, zeros, infinities and NaN
    included), [a * 1], [1 * a] and [a / 1] are [a], and [a * (-1)] is
    [-a]. *)
Theorem scale_by_one (T : floating_point) (Tag : unit_tag) (a : angle_unit T Tag) :
  valid_binary (prec T) (emax T) (value a) = true ->
  mul a (of_int T 1) = a
  /\ mul_left (of_int T 1) a = a
  /\ div a (of_int T 1) = a
  /\ mul a (of_int T (-1)) = neg a.
Proof.
  intros V. destruct a as [x].
  unfold mul, mul_left, div, neg, value in *. cbn [val_] in *.
  assert (C : fmul T (of_int T 1) x = fmul T x (of_int T 1)) by apply SFmul_comm.
  rewrite C, SFmul_one, SFdiv_one, SFmul_minus_one by exact V. repeat split.
Qed.

Lemma scale_by_one_witness :
  valid_binary (prec float) (emax float) (value (example_angle 90)) = true
  /\ mul (example_angle 90) (of_int float 1) = example_angle 90
  /\ div (example_angle 90) (of_int float 1) = example_angle 90.
Proof.
  split; [reflexivity|].
  destruct (scale_by_one float degrees_tag (example_angle 90) eq_refl)
    as (H1 & _ & H3 & _).
  split; [exact H1|exact H3].
Defined.

(** ** Overload resolution, all call forms *)

(** X14: no call of [angle_cast], with or without an explicit template
    argument, is ambiguous. *)
Theorem angle_cast_never_ambiguous (explicit : option cpp_type) (arg : cpp_type)
    (T : floating_point) (Tag : unit_tag) (u : angle_unit T Tag) :
  resolve explicit arg <> Ambiguous
  /\ call_angle_cast explicit u <> AmbiguousCall.
Proof.
  assert (R : forall e a, resolve e a <> Ambiguous).
  { intros [[[|]|[|] [|]]|] [[|]|[|] [|]]; discriminate. }
  split; [apply R|].
  unfold call_angle_cast. specialize (R explicit (Angle T Tag)).
  destruct (resolve explicit (Angle T Tag)) as [[| | |]| |]; try discriminate;
    try congruence; destruct Tag; discriminate.
Qed.

(** X15: [angle_cast<angle_unit<U, Tag'>>(u)] returns [u] when the target is
    the type of [u], fails the [static_assert] when only the tag differs,
    and has no viable candidate when the precision differs: with a tagged
    target type no call converts between units. *)
Theorem angle_cast_explicit_target (T U : floating_point) (Tag Tag' : unit_tag)
    (u : angle_unit T Tag) :
  call_angle_cast (Some (Angle U Tag')) u
  = if floating_point_eqb U T then
      if unit_tag_eqb Tag' Tag then Returns (Tagged u)
      else StaticAssertFailed not_implemented
    else NoMatchingFunction.
Proof. destruct T, U, Tag, Tag'; reflexivity. Qed.

(** X16: [angle_cast<U>(u)] with a scalar type [U] is the call
    [angle_cast(u)] when [U] is the precision of [u], and has no viable
    candidate otherwise. *)
Theorem angle_cast_explicit_scalar (T U : floating_point) (Tag : unit_tag)
    (u : angle_unit T Tag) :
  call_angle_cast (Some (Scalar U)) u
  = if floating_point_eqb U T then call_angle_cast None u else NoMatchingFunction.
Proof. destruct T, U, Tag; reflexivity. Qed.

(** X17: [angle_cast(u)] converts to the other unit, so two successive calls
    return a value of the original type, computed by the two formulas in
    sequence. *)
Theorem angle_cast_twice (T : floating_point) (d : degrees T) (r : radians T) :
  call_angle_cast None d = Returns (Tagged (angle_cast_degrees_to_radians d))
  /\ call_angle_cast None (angle_cast_degrees_to_radians d)
     = Returns (Tagged (angle_cast_radians_to_degrees (angle_cast_degrees_to_radians d)))
  /\ call_angle_cast None r = Returns (Tagged (angle_cast_radians_to_degrees r))
  /\ call_angle_cast None (angle_cast_radians_to_degrees r)
     = Returns (Tagged (angle_cast_degrees_to_radians (angle_cast_radians_to_degrees r))).
Proof. unfold call_angle_cast. rewrite !resolve_deduced. repeat split. Qed.

(** ** Inverse functions feed the direct ones *)

(** X18: the result of [asin], [acos], [atan] or [atan2] is accepted by
    [sin], [cos] and [tan], which apply the standard function to its payload
    unchanged. *)
Theorem trig_of_inverse (std : cmath) (T : floating_point) (y x : spec_float) :
  sin std (@asin std T x) = Returns (std_sin std T (std_asin std T x))
  /\ cos std (@acos std T x) = Returns (std_cos std T (std_acos std T x))
  /\ tan std (@atan std T x) = Returns (std_tan std T (std_atan std T x))
  /\ tan std (@atan2 std T y x) = Returns (std_tan std T (std_atan2 std T y x)).
Proof.
  unfold sin, cos, tan. rewrite !to_radians_payload_radians. repeat split.
Qed.

(** ** Literals *)

Lemma narrow_valid (T : floating_point) (v : spec_float) :
  valid_binary (prec T) (emax T) v = true -> narrow T v = v.
Proof.
  destruct v as [s|s| |s m e]; try reflexivity.
  intros V. apply binary_round_canonical, V.
Qed.

Lemma narrow_opp (T : floating_point) (v : spec_float) :
  narrow T (SFopp v) = SFopp (narrow T v).
Proof.
  destruct v as [s|s| |s m e]; try reflexivity.
  cbn [narrow SFopp]. unfold binary_round.
  destruct (shl_align m e _) as [mz ez]. symmetry. apply binary_round_aux_opp.
Qed.

(** X19: a literal whose [long double] value is a valid number of the target
    precision (zeros, infinities and NaN included) is the explicitly
    constructed angle of that value. *)
Theorem literal_exact (vf vd : spec_float) :
  valid_binary (prec float) (emax float) vf = true ->
  valid_binary (prec double) (emax double) vd = true ->
  _degf vf = mk_angle_unit vf /\ _radf vf = mk_angle_unit vf
  /\ _degd vd = mk_angle_unit vd /\ _radd vd = mk_angle_unit vd.
Proof.
  intros Vf Vd. unfold _degf, _radf, _degd, _radd.
  rewrite (narrow_valid _ vf Vf), (narrow_valid _ vd Vd). repeat split.
Qed.

Lemma literal_exact_witness :
  valid_binary (prec float) (emax float) (of_int float 90) = true
  /\ valid_binary (prec double) (emax double) (of_dyadic double 3 (-1)) = true
  /\ _degf (of_int float 90) = mk_angle_unit (of_int float 90)
  /\ _radd (of_dyadic double 3 (-1)) = mk_angle_unit (of_dyadic double 3 (-1)).
Proof.
  split; [reflexivity|]. split; [reflexivity|].
  destruct (literal_exact (of_int float 90) (of_dyadic double 3 (-1)) eq_refl eq_refl)
    as (H1 & _ & _ & H4).
  split; [exact H1|exact H4].
Defined.

(** X20: negating a literal is the literal of the negated value. *)
Theorem literal_neg (v : spec_float) :
  neg (_degf v) = _degf (SFopp v) /\ neg (_degd v) = _degd (SFopp v)
  /\ neg (_radf v) = _radf (SFopp v) /\ neg (_radd v) = _radd (SFopp v).
Proof.
  unfold _degf, _degd, _radf, _radd, neg, fneg. cbn [val_].
  rewrite !narrow_opp. repeat split.
Qed.

(** ** Rendering *)

(** X22: whatever the rendering of scalars, the text of a radians value is
    never the text of a degrees value, and streaming them onto the same
    output gives different outputs. *)
Theorem renderings_distinct (format_scalar : floating_point -> spec_float -> list byte)
    (T U : floating_point) (r : radians T) (d : degrees U) (os : list byte) :
  format_radians format_scalar r <> format_degrees format_scalar d
  /\ stream_insert format_scalar os r <> stream_insert format_scalar os d.
Proof.
  assert (H : format_radians format_scalar r <> format_degrees format_scalar d).
  { rewrite format_radians_bytes.
    change (format_degrees format_scalar d)
      with (format_scalar U (value d) ++ xc3 :: x82 :: xc2 :: xb0 :: nil)%list.
    intros E. apply (f_equal (@rev byte)) in E.
    rewrite !rev_app_distr in E. discriminate E. }
  split; [exact H|].
  unfold stream_insert. cbn [format_angle]. intros E.
  apply app_inv_head in E. exact (H E).
Qed.

(** ** Chained in-place operators *)

(** X23: the reference returned by [+=] designates the receiver: [(a += b) *= k]
    leaves [(a + b) * k] in the receiver, returns its location, and the
    store is otherwise unchanged. *)
Theorem compound_chain (T : floating_point) (Tag : unit_tag)
    (s : gmap loc (angle_unit T Tag)) (this : loc)
    (a b : angle_unit T Tag) (k : spec_float) :
  s !! this = Some a ->
  match add_assign this b s with
  | Some (ref, s') => mul_assign ref k s'
  | None => None
  end = Some (this, <[this := mul (add a b) k]> s).
Proof.
  intros H. unfold add_assign, mul_assign, update. rewrite H.
  rewrite lookup_insert_eq, insert_insert_eq. reflexivity.
Qed.

Lemma compound_chain_witness :
  example_store !! 1%positive = Some (example_angle 90)
  /\ match add_assign 1%positive (example_angle 45) example_store with
     | Some (ref, s') => mul_assign ref (of_int float 2) s'
     | None => None
     end = Some (1%positive,
                 <[1%positive := mul (add (example_angle 90) (example_angle 45))
                                   (of_int float 2)]> example_store).
Proof.
  assert (H : example_store !! 1%positive = Some (example_angle 90)) by reflexivity.
  split; [exact H|].
  exact (compound_chain float degrees_tag example_store 1%positive
           (example_angle 90) (example_angle 45) (of_int float 2) H).
Defined.

Local Open Scope Q_scope.

(** The rounding of [N * 2^e], [N] of [p + n] digits with [n > 0], in the
    normal range: relative error at most [2^-p]. *)
Lemma binary_round_aux_relative (p emx : Z) (s : bool) (N n : positive) (e : Z) :
  (0 < p)%Z ->
  (Zpos (digits2_pos N) = p + Zpos n)%Z ->
  (emin p emx <= e + Zpos n)%Z ->
  (e + Zpos n + 1 <= emx - p)%Z ->
  exists (my : positive) (ey : Z),
    binary_round_aux p emx s (Zpos N) e loc_Exact = S754_finite s my ey
    /\ inject_Z (2 ^ p) * Qabs (dyadic (Zpos my) ey - dyadic (Zpos N) e)
       <= dyadic (Zpos N) e.
Proof.
  intros Hp Dn Hlo Hhi.
  destruct (binary_round_aux_normal p emx s N n e Hp Dn Hlo Hhi)
    as [m1 [my [ey [Hr [Herr [Hval _]]]]]].
  exists my, ey. split; [exact Hr|].
  assert (V : dyadic (Zpos my) ey == dyadic (m1 * 2 ^ Zpos n) e).
  { rewrite dyadic_shift by lia.
    destruct Hval as [[Hm He]|[Hm He]]; rewrite He, <- Hm; [reflexivity|].
    rewrite <- (dyadic_shift (Zpos my) (e + Zpos n) 1) by lia.
    change (2 ^ 1)%Z with 2%Z. now rewrite Z.mul_comm. }
  rewrite V, dyadic_sub, dyadic_abs.
  unfold dyadic. rewrite Qmult_assoc, <- inject_Z_mult.
  apply Qmult_le_compat_r; [|apply Qlt_le_weak, pow2_pos].
  rewrite <- Zle_Qle.
  assert (EA : (2 ^ (p + Zpos n - 1) = 2 ^ p * 2 ^ (Zpos n - 1))%Z).
  { rewrite <- Z.pow_add_r by lia. f_equal. lia. }
  destruct (digits2_pos_bounds N) as [Nl _]. rewrite Dn, EA in Nl.
  assert (HP : (0 < 2 ^ p)%Z) by (apply Z.pow_pos_nonneg; lia).
  assert (Habs : (Z.abs (m1 * 2 ^ Zpos n - Zpos N) <= 2 ^ (Zpos n - 1))%Z) by lia.
  apply Z.le_trans with (2 := Nl).
  apply Z.mul_le_mono_nonneg_l; [lia|exact Habs].
Qed.

(** X21: a literal whose [long double] value has more digits than the target
    precision and rounds into its normal range has a finite payload within
    the relative error [epsilon / 2] of that value. *)
Theorem narrow_correctly_rounded (T : floating_point) (v : spec_float) :
  narrows_normally T v = true ->
  within ((1 # 2) * machine_epsilon T) v (narrow T v).
Proof.
  destruct v as [s|s| |s m e]; try discriminate.
  cbn [narrows_normally narrow]. rewrite !andb_true_iff, Z.ltb_lt, !Z.leb_le.
  intros [[Hn Hlo] Hhi].
  set (n := (Zpos (digits2_pos m) - prec T)%Z) in *.
  destruct n as [|np|np] eqn:En; try lia.
  assert (Hp : (0 < prec T)%Z) by (destruct T; reflexivity).
  assert (Dn : (Zpos (digits2_pos m) = prec T + Zpos np)%Z) by lia.
  assert (A : shl_align m e (fexp (prec T) (emax T) (Zpos (digits2_pos m) + e)) = (m, e)).
  { unfold shl_align.
    destruct (fexp (prec T) (emax T) (Zpos (digits2_pos m) + e) - e)%Z eqn:F;
      try reflexivity.
    unfold fexp in F. lia. }
  unfold binary_round. rewrite A.
  destruct (binary_round_aux_relative (prec T) (emax T) s m np e Hp Dn Hlo Hhi)
    as [my [ey [E H]]].
  rewrite E. apply within_same_sign.
  assert (K : 0 < inject_Z (2 ^ prec T)) by (destruct T; reflexivity).
  assert (U : (1 # 2) * machine_epsilon T == / inject_Z (2 ^ prec T))
    by (destruct T; vm_compute; reflexivity).
  rewrite U.
  assert (Ku : inject_Z (2 ^ prec T) * / inject_Z (2 ^ prec T) == 1)
    by (apply Qmult_inv_r; lra).
  assert (Hu0 : 0 <= / inject_Z (2 ^ prec T)) by (apply Qinv_le_0_compat; lra).
  assert (A0 : 0 <= Qabs (dyadic (Zpos my) ey - dyadic (Zpos m) e))
    by apply Qabs_nonneg.
  nra.
Qed.

Lemma narrow_correctly_rounded_witness :
  narrows_normally float one_tenth_long_double = true
  /\ within ((1 # 2) * machine_epsilon float) one_tenth_long_double
       (value (_degf one_tenth_long_double)).
Proof.
  split; [reflexivity|].
  exact (narrow_correctly_rounded float one_tenth_long_double eq_refl).
Defined.
